(** * W_hotbox: pointer tracking and hover selection

    A shallow embedding of the hover logic exercised by
    [test_mouse_events.py]: the mock Qt geometry ([QPoint], [QRect]), the
    mock button ([MockButton]) and the mock hotbox ([MockHotbox]) with its
    two methods [_findButtonAtPosition] and [simulate_mouseMove].

    Python integers are unbounded, so coordinates, offsets and sizes are
    [Z].  Buttons are mutable objects that are compared by identity and
    shared between the hotbox's list and its [hoveredButton] attribute, so
    they live in an object store indexed by addresses; the list and the
    attribute hold addresses.

    The second half embeds [copy_hotbox_files.py], the script that
    deploys the two fixed files: its paths, its loop with the backup
    before each overwrite, its handlers and its exit status, over an
    abstract operating system. *)

From Stdlib Require Import Ascii.
From stdpp Require Import base numbers list strings functions pretty.

Local Open Scope Z_scope.

(** ** Mock Qt geometry *)

Module QPoint.
Record t : Type := mk { x : Z; y : Z }.
End QPoint.

Module QRect.
Record t : Type := mk { x : Z; y : Z; width : Z; height : Z }.

(** [self.x <= point.x <= self.x + self.width and
     self.y <= point.y <= self.y + self.height] *)
Definition contains (self : t) (point : QPoint.t) : bool :=
  (x self <=? QPoint.x point) && (QPoint.x point <=? x self + width self) &&
  ((y self <=? QPoint.y point) && (QPoint.y point <=? y self + height self)).
End QRect.

(** ** Buttons *)

Module MockButton.
(** The attributes set by [__init__].  [parent_] is only handed back by
    [parent()], which the hover logic never calls, and is left out. *)
Record t : Type := mk {
  name : string;
  parent_pos : Z * Z;
  size : Z * Z;
  selected : bool
}.

(** [MockButton(name, parent_pos, size, parent)]: a fresh button is not
    selected. *)
Definition init (name : string) (parent_pos size : Z * Z) : t :=
  mk name parent_pos size false.

(** [rect()]: the button's rectangle in its own coordinate system. *)
Definition rect (self : t) : QRect.t :=
  QRect.mk 0 0 (fst (size self)) (snd (size self)).

(** [mapFrom(source, pos)]: [source] is accepted and ignored. *)
Definition mapFrom {Source : Type} (self : t) (source : Source)
    (pos : QPoint.t) : QPoint.t :=
  QPoint.mk (QPoint.x pos - fst (parent_pos self))
            (QPoint.y pos - snd (parent_pos self)).

(** The field update performed by [self.selected = selected]. *)
Definition with_selected (self : t) (v : bool) : t :=
  mk (name self) (parent_pos self) (size self) v.
End MockButton.

(** ** The hotbox and the object store *)

Definition addr : Type := nat.

Module MockHotbox.
Record t : Type := mk {
  hoveredButton : option addr;
  buttons : list addr
}.

(** [MockHotbox()]: nothing hovered, no buttons yet. *)
Definition init : t := mk None [].

(** [hotbox.buttons = bs], as the tests do after creating the buttons. *)
Definition with_buttons (self : t) (bs : list addr) : t :=
  mk (hoveredButton self) bs.
End MockHotbox.

(** The part of the Python heap the hover logic touches: every button
    object, and the one hotbox the methods are called on. *)
Record World : Type := mkWorld {
  heap : addr → MockButton.t;
  self : MockHotbox.t
}.

Abbreviation hovered w := (MockHotbox.hoveredButton (self w)).
Abbreviation regions w := (MockHotbox.buttons (self w)).

(** ** Effects

    A method call reads and writes the world and emits the
    [setSelectionStatus] calls it makes, in order.  (The diagnostic
    [print]s go to standard output and are not part of the state.) *)

Inductive Call : Type :=
  | SetSelectionStatus (button : addr) (selected : bool).

Global Instance Call_eq_dec : EqDecision Call.
Proof. solve_decision. Defined.

Definition M (A : Type) : Type := World → A * World * list Call.

Global Instance M_ret : MRet M := λ A a w, (a, w, []).
Global Instance M_bind : MBind M := λ A B f m w,
  let '(a, w1, t1) := m w in
  let '(b, w2, t2) := f a w1 in
  (b, w2, t1 ++ t2).

Definition result {A} (r : A * World * list Call) : A := r.1.1.
Definition final {A} (r : A * World * list Call) : World := r.1.2.
Definition emitted {A} (r : A * World * list Call) : list Call := r.2.

(** Attribute reads. *)
Definition load (a : addr) : M MockButton.t := λ w, (heap w a, w, []).
Definition get_self : M MockHotbox.t := λ w, (self w, w, []).
Definition get_buttons : M (list addr) := λ w, (regions w, w, []).
Definition get_hoveredButton : M (option addr) := λ w, (hovered w, w, []).

(** [self.hoveredButton = b] *)
Definition set_hoveredButton (b : option addr) : M unit := λ w,
  (tt, mkWorld (heap w) (MockHotbox.mk b (regions w)), []).

(** [button.setSelectionStatus(selected)]: writes the flag of the object
    at [button] and is recorded as an emitted call. *)
Definition setSelectionStatus (button : addr) (selected : bool) : M unit :=
  λ w,
  (tt,
   mkWorld (<[button := MockButton.with_selected (heap w button) selected]> (heap w))
           (self w),
   [SetSelectionStatus button selected]).

(** ** Hover selector *)

(** The [for button in buttons:] loop of [_findButtonAtPosition], leaving
    at the first button whose rectangle contains the mapped position. *)
Fixpoint find_loop (pos : QPoint.t) (bs : list addr) : M (option addr) :=
  match bs with
  | [] => mret None
  | button :: rest =>
      b ← load button;
      hotbox ← get_self;
      let button_local_pos := MockButton.mapFrom b hotbox pos in
      let button_rect := MockButton.rect b in
      if QRect.contains button_rect button_local_pos
      then mret (Some button)
      else find_loop pos rest
  end.

(** Every object of the store is a [MockButton], so the [isinstance]
    filter keeps the whole list. *)
Definition _findButtonAtPosition (pos : QPoint.t) : M (option addr) :=
  buttons ← get_buttons;
  find_loop pos buttons.

(** The [for btn in self.buttons:] loop of [simulate_mouseMove]. *)
Fixpoint clear_loop (bs : list addr) : M unit :=
  match bs with
  | [] => mret tt
  | btn :: rest =>
      b ← load btn;
      (if MockButton.selected b then setSelectionStatus btn false else mret tt);;
      clear_loop rest
  end.

(** [button_under_cursor != old_button] compares object identities
    ([MockButton] defines no [__eq__]); [if button_under_cursor:] is true
    of every button object and false of [None]. *)
Definition simulate_mouseMove (pos : QPoint.t) : M unit :=
  button_under_cursor ← _findButtonAtPosition pos;
  old_button ← get_hoveredButton;
  if bool_decide (button_under_cursor ≠ old_button) then
    buttons ← get_buttons;
    clear_loop buttons;;
    set_hoveredButton button_under_cursor;;
    match button_under_cursor with
    | Some b => setSelectionStatus b true
    | None => mret tt
    end
  else mret tt.

(** A session: the worlds reached after each pointer-move event. *)
Fixpoint run (ps : list QPoint.t) (w : World) : list World :=
  match ps with
  | [] => []
  | p :: ps' =>
      let w' := final (simulate_mouseMove p w) in
      w' :: run ps' w'
  end.

(** ** The scenarios of the test script *)

Module Scenario.
Definition button1 := MockButton.init "Button1" (10, 10) (105, 35).
Definition button2 := MockButton.init "Button2" (125, 10) (105, 35).
Definition button3 := MockButton.init "Button3" (10, 55) (105, 35).
Definition button3' := MockButton.init "Button3" (240, 10) (105, 35).

Definition store (b3 : MockButton.t) : addr → MockButton.t :=
  <[0%nat := button1]> (<[1%nat := button2]> (λ _, b3)).

Definition hotbox : World :=
  mkWorld (store button3)
          (MockHotbox.with_buttons MockHotbox.init [0; 1; 2]%nat).
Definition rapid : World :=
  mkWorld (store button3')
          (MockHotbox.with_buttons MockHotbox.init [0; 1; 2]%nat).

Definition flags (w : World) : list bool :=
  (λ a, MockButton.selected (heap w a)) <$> regions w.
End Scenario.

(** Degenerate layouts: a Region of width 0 and a Region of negative
    width, each alone in its hotbox at offset (10,10). *)
Module Degenerate.
Definition empty : World :=
  mkWorld (λ _, MockButton.init "Empty" (10, 10) (0, 35))
          (MockHotbox.mk None [0%nat]).
Definition inverted : World :=
  mkWorld (λ _, MockButton.init "Inverted" (10, 10) (-5, 35))
          (MockHotbox.mk None [0%nat]).
End Degenerate.

(** Two overlapping Regions, A at (10,10) and B at (60,20), both of
    size (105,35), with A first in the collection. *)
Module Overlap.
Definition A : addr := 0%nat.
Definition B : addr := 1%nat.
Definition hotbox : World :=
  mkWorld (<[A := MockButton.init "A" (10, 10) (105, 35)]>
             (λ _, MockButton.init "B" (60, 20) (105, 35)))
          (MockHotbox.mk None [A; B]).
End Overlap.

(** ** Pure readings of the two loops *)

(** The test [_findButtonAtPosition] makes for the button at [a]. *)
Definition hit (w : World) (pos : QPoint.t) (a : addr) : bool :=
  QRect.contains (MockButton.rect (heap w a))
                 (MockButton.mapFrom (heap w a) (self w) pos).

Fixpoint first_hit (w : World) (pos : QPoint.t) (bs : list addr) : option addr :=
  match bs with
  | [] => None
  | a :: rest => if hit w pos a then Some a else first_hit w pos rest
  end.

(** The winner of a pointer position. *)
Definition winner (w : World) (pos : QPoint.t) : option addr :=
  first_hit w pos (regions w).

(** The members of a list, each once, in order of first occurrence. *)
Fixpoint distinct (l : list addr) : list addr :=
  match l with
  | [] => []
  | a :: l' => a :: filter (λ b, b ≠ a) (distinct l')
  end.

Definition is_selected (w : World) (a : addr) : Prop :=
  MockButton.selected (heap w a) = true.

Global Instance is_selected_dec w a : Decision (is_selected w a).
Proof. unfold is_selected. apply _. Defined.

(** The Regions of the collection whose selection flag is set. *)
Definition flagged (w : World) : list addr :=
  filter (is_selected w) (distinct (regions w)).

(** What the test script counts:
    [sum(1 for btn in hotbox.buttons if btn.selected)]. *)
Definition selected_count (w : World) : nat :=
  length (filter (is_selected w) (regions w)).

Definition deselect (a : addr) : Call := SetSelectionStatus a false.
Definition select (a : addr) : Call := SetSelectionStatus a true.

(** The single-selection invariant: at most one Region is flagged, and a
    flagged Region is the hovered one. *)
Definition single_selection (w : World) : Prop :=
  (length (flagged w) ≤ 1)%nat ∧
  Forall (λ a, hovered w = Some a) (flagged w).

Global Instance single_selection_dec w : Decision (single_selection w).
Proof. unfold single_selection. apply _. Defined.

(** The state of a freshly laid out menu: nothing hovered, no flag set. *)
Definition initial (w : World) : Prop :=
  hovered w = None ∧
  Forall (λ a, MockButton.selected (heap w a) = false) (regions w).

Global Instance initial_dec w : Decision (initial w).
Proof. unfold initial. apply _. Defined.

(** No Region of the collection contains the position. *)
Definition outside_all (w : World) (pos : QPoint.t) : Prop :=
  Forall (λ a, hit w pos a = false) (regions w).

Global Instance outside_all_dec w pos : Decision (outside_all w pos).
Proof. unfold outside_all. apply _. Defined.

(** The geometry and identity of every button, and the collection. *)
Definition same_layout (w w' : World) : Prop :=
  regions w' = regions w ∧
  ∀ a, MockButton.name (heap w' a) = MockButton.name (heap w a) ∧
       MockButton.parent_pos (heap w' a) = MockButton.parent_pos (heap w a) ∧
       MockButton.size (heap w' a) = MockButton.size (heap w a).

(** The store after the clearing loop has run over [bs]. *)
Definition cleared (w : World) (bs : list addr) (a : addr) : MockButton.t :=
  if decide (a ∈ bs) then MockButton.with_selected (heap w a) false
  else heap w a.

(** The select a transition emits for its winner. *)
Definition select_winner (o : option addr) : list Call :=
  match o with
  | Some b => [select b]
  | None => []
  end.

(** A drifted entry state: Button1 and Button2 both flagged, nothing
    hovered. *)
Definition drifted : World :=
  mkWorld (<[0%nat := MockButton.with_selected Scenario.button1 true]>
             (<[1%nat := MockButton.with_selected Scenario.button2 true]>
                (heap Scenario.hotbox)))
          (self Scenario.hotbox).

(** ** Sessions, end to end *)

(** The world a session ends in. *)
Definition play (ps : list QPoint.t) (w : World) : World :=
  foldl (λ w p, final (simulate_mouseMove p w)) w ps.

(** Every [setSelectionStatus] call of a session, in order. *)
Fixpoint session_trace (ps : list QPoint.t) (w : World) : list Call :=
  match ps with
  | [] => []
  | p :: ps' =>
      let r := simulate_mouseMove p w in
      emitted r ++ session_trace ps' (final r)
  end.

(** The flags and the hovered reference say the same thing: the flagged
    Regions are the hovered one, or none when nothing is hovered. *)
Definition agree (w : World) : Prop :=
  flagged w = option_list (hovered w).

Global Instance agree_dec w : Decision (agree w).
Proof. unfold agree. apply _. Defined.

(** A highlight protocol read off a trace: a select is only legal while
    nothing is highlighted, a deselect only of the Region highlighted
    now.  [replay cur t] is the highlight after [t], if [t] is legal. *)
Fixpoint replay (cur : option addr) (t : list Call) : option (option addr) :=
  match t with
  | [] => Some cur
  | SetSelectionStatus a true :: t' =>
      match cur with
      | None => replay (Some a) t'
      | Some _ => None
      end
  | SetSelectionStatus a false :: t' =>
      if decide (cur = Some a) then replay None t' else None
  end.

(** A button listed twice: the collection [0; 0] over Button1. *)
Definition repeated : World :=
  mkWorld (λ _, Scenario.button1) (MockHotbox.mk None [0; 0]%nat).

(** Two Regions side by side sharing the edge x = 115, and the same two
    in the other order. *)
Module Adjacent.
Definition left : addr := 0%nat.
Definition right : addr := 1%nat.
Definition store : addr → MockButton.t :=
  <[left := MockButton.init "Left" (10, 10) (105, 35)]>
    (λ _, MockButton.init "Right" (115, 10) (105, 35)).
Definition hotbox : World := mkWorld store (MockHotbox.mk None [left; right]).
Definition swapped : World := mkWorld store (MockHotbox.mk None [right; left]).
End Adjacent.

(** ** The deployment script, [copy_hotbox_files.py]

    The script talks to the operating system through [os.getcwd],
    [os.path.exists] and [shutil.copy2], and to the user through
    [print].  The operating system is an interface: a state, the answers
    it gives and how a copy changes it.  [shutil.copy2] either returns
    or raises; [os.path.exists] and [os.getcwd] answer without changing
    anything. *)

(** What [shutil.copy2] may raise, as the script's handlers see it:
    [PermissionError], or any other [Exception] with its [str()]. *)
Inductive Exception : Type :=
  | PermissionError
  | OtherException (text : string).

Class Os (FS : Type) : Type := {
  os_getcwd : FS → string;
  os_path_exists : FS → string → bool;
  shutil_copy2 : string → string → FS → option Exception * FS
}.

(** What a run does, in order: the lines it prints and the calls it
    makes, each call with the answer it got. *)
Inductive Event : Type :=
  | Stdout (line : string)
  | PathExists (path : string) (answer : bool)
  | Copy2 (src dst : string) (raised : option Exception).

Global Instance Exception_eq_dec : EqDecision Exception.
Proof. solve_decision. Defined.
Global Instance Event_eq_dec : EqDecision Event.
Proof. solve_decision. Defined.

Definition IO (FS A : Type) : Type := FS → A * FS * list Event.

Global Instance IO_ret {FS} : MRet (IO FS) := λ A a fs, (a, fs, []).
Global Instance IO_bind {FS} : MBind (IO FS) := λ A B f m fs,
  let '(a, fs1, t1) := m fs in
  let '(b, fs2, t2) := f a fs1 in
  (b, fs2, t1 ++ t2).

Definition returned {FS A} (r : A * FS * list Event) : A := r.1.1.
Definition left_fs {FS A} (r : A * FS * list Event) : FS := r.1.2.
Definition transcript {FS A} (r : A * FS * list Event) : list Event := r.2.

(** The calls of a transcript, without the printed lines. *)
Definition is_call (e : Event) : bool :=
  match e with
  | Stdout _ => false
  | _ => true
  end.
Definition calls (t : list Event) : list Event := filter (λ e, is_call e = true) t.

(** The [shutil.copy2] calls of a transcript. *)
Definition is_copy2 (e : Event) : bool :=
  match e with
  | Copy2 _ _ _ => true
  | _ => false
  end.
Definition copies (t : list Event) : list Event :=
  filter (λ e, is_copy2 e = true) t.

(** Backup before overwrite, read off a sequence of calls: a copy onto
    one of the paths [protect] comes right after [os.path.exists]
    answered [False] for that path, or right after that path was found
    and copied to its [.backup] without an exception. *)
Definition guarded (protect : list string) (l : list Event) : Prop :=
  ∀ pre src d raised post,
    l = pre ++ Copy2 src d raised :: post → d ∈ protect →
    (∃ pre', pre = pre' ++ [PathExists d false]) ∨
    (∃ pre', pre = pre' ++ [PathExists d true; Copy2 d (d +:+ ".backup") None]).

(** [os.path.join(a, b)] on a POSIX system ([posixpath.join]): an
    absolute [b] replaces [a]; otherwise [b] is appended, after a
    separator unless [a] is empty or already ends in one. *)
Definition starts_with_sep (s : string) : bool :=
  match s with
  | String "/"%char _ => true
  | _ => false
  end.

Fixpoint ends_with_sep (s : string) : bool :=
  match s with
  | EmptyString => false
  | String c EmptyString => bool_decide (c = "/"%char)
  | String _ rest => ends_with_sep rest
  end.

Definition path_join (a b : string) : string :=
  if starts_with_sep b then b
  else if bool_decide (a = "") || ends_with_sep a then a +:+ b
  else a +:+ "/" +:+ b.

(** [s[n:]] *)
Fixpoint drop_chars (n : nat) (s : string) : string :=
  match n, s with
  | O, _ => s
  | S n', String _ rest => drop_chars n' rest
  | S _, EmptyString => EmptyString
  end.

(** ["-" * n] and ["=" * n] *)
Fixpoint repeat_string (s : string) (n : nat) : string :=
  match n with
  | O => ""
  | S n' => s +:+ repeat_string s n'
  end.

Definition newline : string := String (Ascii.ascii_of_nat 10) "".

Definition dest_dir : string :=
  "/mnt/studio/pipeline/packages/nuke_w_hotbox/nuke16/bin".
Definition files_to_copy : list string := ["W_hotbox.py"; "W_hotboxManager.py"].

Section script.
Context {FS : Type} `{!Os FS}.

Definition print (line : string) : IO FS unit := λ fs, (tt, fs, [Stdout line]).
Definition getcwd : IO FS string := λ fs, (os_getcwd fs, fs, []).
Definition path_exists (p : string) : IO FS bool := λ fs,
  (os_path_exists fs p, fs, [PathExists p (os_path_exists fs p)]).
Definition copy2 (src dst : string) : IO FS (option Exception) := λ fs,
  let '(raised, fs') := shutil_copy2 src dst fs in
  (raised, fs', [Copy2 src dst raised]).

(** The body of the [try:]; [None] when it ran to its end, the exception
    otherwise.  An exception leaves the body at the call that raised. *)
Definition try_body (source_file dest_file filename : string)
    : IO FS (option Exception) :=
  present ← path_exists dest_file;
  raised ← (if (present : bool) then
              let backup_file := dest_file +:+ ".backup" in
              r ← copy2 dest_file backup_file;
              match r with
              | None => print ("Created backup: " +:+ backup_file);; mret None
              | Some e => mret (Some e)
              end
            else mret None);
  match raised with
  | Some e => mret (Some e)
  | None =>
      r ← copy2 source_file dest_file;
      match r with
      | None => print ("✓ Copied: " +:+ filename);; mret None
      | Some e => mret (Some e)
      end
  end.

(** One turn of [for filename in files_to_copy:], returning the new
    [success_count]. *)
Definition loop_body (source_dir filename : string) (success_count : nat)
    : IO FS nat :=
  let source_file := path_join source_dir filename in
  let dest_file := path_join dest_dir filename in
  found ← path_exists source_file;
  if negb found then
    print ("WARNING: Source file not found: " +:+ source_file);;
    mret success_count
  else
    raised ← try_body source_file dest_file filename;
    match raised with
    | None => mret (S success_count)
    | Some PermissionError =>
        print ("ERROR: Permission denied copying " +:+ filename);;
        print "You may need to run this script with appropriate permissions";;
        mret success_count
    | Some (OtherException text) =>
        print ("ERROR: Failed to copy " +:+ filename +:+ ": " +:+ text);;
        mret success_count
    end.

Fixpoint copy_loop (source_dir : string) (files : list string)
    (success_count : nat) : IO FS nat :=
  match files with
  | [] => mret success_count
  | filename :: rest =>
      n ← loop_body source_dir filename success_count;
      copy_loop source_dir rest n
  end.

Definition copy_hotbox_files : IO FS bool :=
  cwd ← getcwd;
  let source_dir := path_join cwd "W_hotbox_v1.9" in
  print ("Source directory: " +:+ source_dir);;
  print ("Destination directory: " +:+ dest_dir);;
  print (repeat_string "-" 50);;
  source_ok ← path_exists source_dir;
  if negb source_ok then
    print ("ERROR: Source directory does not exist: " +:+ source_dir);;
    mret false
  else
    dest_ok ← path_exists dest_dir;
    if negb dest_ok then
      print ("ERROR: Destination directory does not exist: " +:+ dest_dir);;
      mret false
    else
      success_count ← copy_loop source_dir files_to_copy 0;
      print (repeat_string "-" 50);;
      print ("Successfully copied " +:+ pretty success_count +:+ " out of "
             +:+ pretty (length files_to_copy) +:+ " files");;
      if bool_decide (success_count = length files_to_copy) then
        print "All files copied successfully!";; mret true
      else
        print "Some files failed to copy. Check the errors above.";;
        mret false.

(** The [if __name__ == "__main__":] block, returning the exit status
    ([sys.exit(1)], or 0 when the block runs to its end). *)
Definition main : IO FS nat :=
  print "W_Hotbox File Copy Script";;
  print (repeat_string "=" 50);;
  current_dir ← getcwd;
  here ← path_exists (path_join current_dir "W_hotbox_v1.9");
  if negb here then
    print "ERROR: This script should be run from the directory containing W_hotbox_v1.9/";;
    print ("Current directory: " +:+ current_dir);;
    mret 1%nat
  else
    success ← copy_hotbox_files;
    if (success : bool) then
      print (newline +:+ "Files have been copied successfully!");;
      print "The fixed W_hotbox files are now in the studio pipeline location.";;
      mret 0%nat
    else
      print (newline +:+ "Some errors occurred during the copy operation.");;
      mret 1%nat.

End script.

(** The paths of a run started in [cwd]. *)
Definition source_dir_of (cwd : string) : string := path_join cwd "W_hotbox_v1.9".
Definition source_file_of (cwd filename : string) : string :=
  path_join (source_dir_of cwd) filename.
Definition dest_file_of (filename : string) : string := path_join dest_dir filename.
Definition backup_file_of (filename : string) : string :=
  dest_file_of filename +:+ ".backup".

(** What handling one file can look like from outside: the calls made
    from state [fs] for source [s] and destination [d], whether the file
    was counted as copied, and the state left behind. *)
Inductive file_run {FS : Type} `{!Os FS} (fs : FS) (s d : string)
    : list Event → bool → FS → Prop :=
  | run_missing :
      os_path_exists fs s = false →
      file_run fs s d [PathExists s false] false fs
  | run_fresh raised fs' :
      os_path_exists fs s = true → os_path_exists fs d = false →
      shutil_copy2 s d fs = (raised, fs') →
      file_run fs s d [PathExists s true; PathExists d false; Copy2 s d raised]
               (bool_decide (raised = None)) fs'
  | run_backup_failed e fs' :
      os_path_exists fs s = true → os_path_exists fs d = true →
      shutil_copy2 d (d +:+ ".backup") fs = (Some e, fs') →
      file_run fs s d
               [PathExists s true; PathExists d true;
                Copy2 d (d +:+ ".backup") (Some e)]
               false fs'
  | run_backed_up raised fs1 fs2 :
      os_path_exists fs s = true → os_path_exists fs d = true →
      shutil_copy2 d (d +:+ ".backup") fs = (None, fs1) →
      shutil_copy2 s d fs1 = (raised, fs2) →
      file_run fs s d
               [PathExists s true; PathExists d true;
                Copy2 d (d +:+ ".backup") None; Copy2 s d raised]
               (bool_decide (raised = None)) fs2.

(** *** A small file system to run the script on

    Files with their contents, directories, and paths that refuse to be
    written.  [copy2] of a missing source raises [FileNotFoundError] (an
    [Exception] that is not a [PermissionError]). *)
Record SimFS : Type := mkSimFS {
  sim_cwd : string;
  sim_dirs : list string;
  sim_files : string → option string;
  sim_readonly : list string
}.

Definition sim_copy2 (src dst : string) (fs : SimFS) : option Exception * SimFS :=
  match sim_files fs src with
  | None => (Some (OtherException "[Errno 2] No such file or directory"), fs)
  | Some content =>
      if bool_decide (dst ∈ sim_readonly fs) then (Some PermissionError, fs)
      else (None, mkSimFS (sim_cwd fs) (sim_dirs fs)
                          (<[dst := Some content]> (sim_files fs))
                          (sim_readonly fs))
  end.

Definition sim_exists (fs : SimFS) (p : string) : bool :=
  bool_decide (p ∈ sim_dirs fs) || bool_decide (is_Some (sim_files fs p)).

Global Instance SimFS_os : Os SimFS := {
  os_getcwd := sim_cwd;
  os_path_exists := sim_exists;
  shutil_copy2 := sim_copy2
}.

Module Studio.
Definition source1 := "/home/artist/W_hotbox_v1.9/W_hotbox.py".
Definition source2 := "/home/artist/W_hotbox_v1.9/W_hotboxManager.py".
Definition dest1 := "/mnt/studio/pipeline/packages/nuke_w_hotbox/nuke16/bin/W_hotbox.py".
Definition dest2 :=
  "/mnt/studio/pipeline/packages/nuke_w_hotbox/nuke16/bin/W_hotboxManager.py".

(** Both fixed files in place, an old [W_hotbox.py] already deployed. *)
Definition ready : SimFS :=
  mkSimFS "/home/artist" ["/home/artist/W_hotbox_v1.9"; dest_dir]
          (<[source1 := Some "fixed hotbox"]>
             (<[source2 := Some "fixed manager"]>
                (<[dest1 := Some "old hotbox"]> (λ _, None))))
          [].

(** The same, with the deployed [W_hotbox.py] write-protected. *)
Definition protected : SimFS :=
  mkSimFS (sim_cwd ready) (sim_dirs ready) (sim_files ready) [dest1].

(** Started from a directory without [W_hotbox_v1.9]. *)
Definition elsewhere : SimFS :=
  mkSimFS "/tmp" (sim_dirs ready) (sim_files ready) [].
End Studio.

(** ** The test script, replayed *)

Example test_coordinate_conversion :
  (λ p, result (_findButtonAtPosition p Scenario.hotbox)) <$>
    [QPoint.mk 62 27; QPoint.mk 177 27; QPoint.mk 62 72; QPoint.mk 5 5;
     QPoint.mk 250 25]
  = [Some 0; Some 1; Some 2; None; None]%nat.
Proof. reflexivity. Qed.

Example test_hover_state_management :
  (λ w, (Scenario.flags w, hovered w)) <$>
    run [QPoint.mk 62 27; QPoint.mk 177 27; QPoint.mk 5 5] Scenario.hotbox
  = [([true; false; false], Some 0%nat);
     ([false; true; false], Some 1%nat);
     ([false; false; false], None)].
Proof. reflexivity. Qed.

Example test_rapid_movement :
  (λ w, (Scenario.flags w, hovered w)) <$>
    run [QPoint.mk 62 27; QPoint.mk 177 27; QPoint.mk 62 27;
         QPoint.mk 292 27; QPoint.mk 177 27] Scenario.rapid
  = [([true; false; false], Some 0%nat);
     ([false; true; false], Some 1%nat);
     ([true; false; false], Some 0%nat);
     ([false; false; true], Some 2%nat);
     ([false; true; false], Some 1%nat)].
Proof. reflexivity. Qed.

(** ** Locating the Region under the pointer *)

Lemma find_loop_spec pos bs w :
  find_loop pos bs w = (first_hit w pos bs, w, []).
Proof.
  induction bs as [|a bs IH]; [done|].
  cbn [find_loop first_hit]. unfold mbind, M_bind, load, get_self, hit.
  cbn beta iota zeta.
  destruct (QRect.contains _ _); [done|]. by rewrite IH.
Qed.

Lemma findButtonAtPosition_spec pos w :
  _findButtonAtPosition pos w = (winner w pos, w, []).
Proof.
  unfold _findButtonAtPosition, mbind, M_bind, get_buttons. cbn beta iota zeta.
  by rewrite find_loop_spec.
Qed.

Lemma first_hit_Some w pos bs a :
  first_hit w pos bs = Some a ↔
  ∃ l1 l2, bs = l1 ++ a :: l2 ∧ hit w pos a = true ∧
           ∀ b, b ∈ l1 → hit w pos b = false.
Proof.
  induction bs as [|c bs IH]; simpl.
  - split; [done|]. intros (l1 & l2 & E & _). by destruct l1.
  - destruct (hit w pos c) eqn:Hc.
    + split.
      * intros [= <-]. exists [], bs. split_and!; [done..|]. by intros b ?%elem_of_nil.
      * intros (l1 & l2 & E & Ha & Hl1). destruct l1 as [|d l1]; simplify_eq/=; [done|].
        rewrite Hl1 in Hc; [done|]. left.
    + rewrite IH. split.
      * intros (l1 & l2 & -> & Ha & Hl1). exists (c :: l1), l2. split_and!; [done..|].
        intros b [->|?]%elem_of_cons; auto.
      * intros (l1 & l2 & E & Ha & Hl1). destruct l1 as [|d l1]; simplify_eq/=.
        { congruence. }
        exists l1, l2. split_and!; [done..|]. intros b Hb. apply Hl1. by right.
Qed.

Lemma first_hit_None w pos bs :
  first_hit w pos bs = None ↔ ∀ b, b ∈ bs → hit w pos b = false.
Proof.
  induction bs as [|c bs IH]; simpl.
  - split; [|done]. by intros _ b ?%elem_of_nil.
  - destruct (hit w pos c) eqn:Hc.
    + split; [done|]. intros H. rewrite H in Hc; [done|left].
    + rewrite IH. split.
      * intros H b [->|?]%elem_of_cons; auto.
      * intros H b Hb. apply H. by right.
Qed.

Lemma first_hit_elem w pos bs a :
  first_hit w pos bs = Some a → a ∈ bs ∧ hit w pos a = true.
Proof.
  intros (l1 & l2 & -> & Ha & _)%first_hit_Some. split; [|done].
  apply elem_of_app. right. left.
Qed.

(** The winner only depends on the layout. *)
Lemma hit_layout w w' pos a :
  same_layout w w' → hit w' pos a = hit w pos a.
Proof.
  intros [_ H]. destruct (H a) as (_ & Hp & Hs).
  unfold hit, MockButton.rect, MockButton.mapFrom. by rewrite Hp, Hs.
Qed.

Lemma winner_layout w w' pos :
  same_layout w w' → winner w' pos = winner w pos.
Proof.
  intros HL. unfold winner. rewrite (proj1 HL).
  induction (regions w) as [|a bs IH]; [done|]. simpl.
  by rewrite (hit_layout w w'), IH.
Qed.

(** ** Distinct members and flagged Regions *)

Lemma elem_of_distinct l a : a ∈ distinct l ↔ a ∈ l.
Proof.
  induction l as [|c l IH]; simpl; [done|].
  rewrite !elem_of_cons, list_elem_of_filter, IH.
  destruct (decide (a = c)); tauto.
Qed.

Lemma NoDup_distinct l : NoDup (distinct l).
Proof.
  induction l as [|c l IH]; simpl; [constructor|].
  constructor; [|by apply list.NoDup_filter].
  rewrite list_elem_of_filter. tauto.
Qed.

Lemma filter_other_id (l : list addr) c :
  c ∉ l → filter (λ b, b ≠ c) l = l.
Proof.
  induction l as [|d l IH]; [done|].
  intros [Hcd Hc]%not_elem_of_cons. rewrite filter_cons.
  destruct (decide (d ≠ c)) as [_|Hn].
  - f_equal. auto.
  - exfalso. apply Hn. congruence.
Qed.

Lemma distinct_NoDup l : NoDup l → distinct l = l.
Proof.
  induction 1 as [|c l Hc _ IH]; simpl; [done|].
  by rewrite IH, filter_other_id.
Qed.

Lemma elem_of_flagged w a :
  a ∈ flagged w ↔ a ∈ regions w ∧ MockButton.selected (heap w a) = true.
Proof.
  unfold flagged. rewrite list_elem_of_filter, elem_of_distinct.
  unfold is_selected. tauto.
Qed.

Lemma NoDup_flagged w : NoDup (flagged w).
Proof. apply list.NoDup_filter, NoDup_distinct. Qed.

(** A duplicate-free list all of whose members are one value. *)
Lemma NoDup_all_same (l : list addr) h :
  NoDup l → (∀ a, a ∈ l → a = h) → l = [] ∨ l = [h].
Proof.
  intros ND H. destruct l as [|a [|b l]]; [by left| |].
  - right. f_equal. apply H. left.
  - exfalso. inversion ND as [|? ? Hab _]; subst. apply Hab.
    rewrite (H a), (H b); [left|right; left|left].
Qed.

(** The invariant, Region by Region. *)
Lemma single_selection_alt w :
  single_selection w ↔
  ∀ a, a ∈ regions w → MockButton.selected (heap w a) = true →
       hovered w = Some a.
Proof.
  unfold single_selection. rewrite list.Forall_forall. split.
  - intros [_ H] a Ha Hs. apply H. by apply elem_of_flagged.
  - intros H.
    assert (∀ a, a ∈ flagged w → hovered w = Some a) as H'.
    { intros a [Ha Hs]%elem_of_flagged. auto. }
    split; [|done]. destruct (hovered w) as [h|] eqn:Eh.
    + destruct (NoDup_all_same (flagged w) h (NoDup_flagged w)) as [E|E].
      { intros a Ha. specialize (H' a Ha). congruence. }
      all: rewrite E; simpl; lia.
    + destruct (flagged w) as [|a l]; [simpl; lia|].
      specialize (H' a). discriminate H'. left.
Qed.

(** With no hovered reference the invariant leaves no flag set. *)
Lemma single_selection_None w :
  single_selection w → hovered w = None → flagged w = [].
Proof.
  intros [_ H] Eh. destruct (flagged w) as [|a l]; [done|].
  inversion H; congruence.
Qed.

(** On a collection without repetitions the script's count is the
    number of flagged Regions. *)
Lemma selected_count_flagged w :
  NoDup (regions w) → selected_count w = length (flagged w).
Proof. intros ND. unfold selected_count, flagged. by rewrite distinct_NoDup. Qed.

(** ** Clearing the collection *)

Lemma with_selected_same b :
  MockButton.with_selected b (MockButton.selected b) = b.
Proof. by destruct b. Qed.

Lemma clear_loop_cons c bs w :
  clear_loop (c :: bs) w =
  if MockButton.selected (heap w c) then
    let r := clear_loop bs (final (setSelectionStatus c false w)) in
    (tt, final r, deselect c :: emitted r)
  else clear_loop bs w.
Proof.
  cbn [clear_loop]. unfold mbind, M_bind, load. cbn beta iota zeta.
  destruct (MockButton.selected (heap w c)).
  - unfold setSelectionStatus, final, emitted. cbn.
    by destruct (clear_loop bs _) as [[[] w2] t2].
  - unfold mret, M_ret. by destruct (clear_loop bs w) as [[[] w2] t2].
Qed.

Lemma cleared_cons w c bs a :
  cleared w (c :: bs) a =
  if decide (a = c) then MockButton.with_selected (heap w c) false
  else cleared w bs a.
Proof.
  unfold cleared. destruct (decide (a = c)) as [->|Hac].
  - by rewrite (decide_True (P := c ∈ c :: bs)) by left.
  - destruct (decide (a ∈ bs)) as [Hin|Hin].
    + by rewrite decide_True by (by right).
    + rewrite decide_False; [done|]. rewrite elem_of_cons. tauto.
Qed.

Lemma clear_loop_spec bs w :
  self (final (clear_loop bs w)) = self w ∧
  (∀ a, heap (final (clear_loop bs w)) a = cleared w bs a) ∧
  emitted (clear_loop bs w) = deselect <$> filter (is_selected w) (distinct bs).
Proof.
  revert w. induction bs as [|c bs IH]; intros w.
  { split_and!; [done| |done]. intros a. unfold cleared.
    by rewrite decide_False by apply not_elem_of_nil. }
  rewrite clear_loop_cons. cbn [distinct].
  destruct (MockButton.selected (heap w c)) eqn:Hc.
  - set (w1 := final (setSelectionStatus c false w)).
    destruct (IH w1) as (Hs & Hh & He).
    cbn zeta. unfold final at 1 3, emitted at 1. cbn [fst snd].
    rewrite Hs, He. split_and!; [done| |].
    + intros a. rewrite Hh, cleared_cons. unfold cleared, w1. cbn.
      destruct (decide (a = c)) as [->|Hac].
      * rewrite fn_lookup_insert. by destruct (decide (c ∈ bs)).
      * by rewrite fn_lookup_insert_ne by done.
    + rewrite filter_cons, decide_True by done. cbn. f_equal.
      rewrite list_filter_filter. f_equal. apply list_filter_iff. intros a.
      unfold is_selected, w1. cbn. destruct (decide (a = c)) as [->|Hac].
      * rewrite fn_lookup_insert. cbn. split; [done|]. by intros [_ []].
      * rewrite fn_lookup_insert_ne by done. tauto.
  - destruct (IH w) as (Hs & Hh & He). rewrite Hs, He.
    split_and!; [done| |].
    + intros a. rewrite Hh, cleared_cons.
      destruct (decide (a = c)) as [->|Hac]; [|done].
      unfold cleared. destruct (decide (c ∈ bs)); [done|].
      by rewrite <- Hc, with_selected_same.
    + rewrite filter_cons, decide_False by (unfold is_selected; congruence).
      f_equal. rewrite list_filter_filter. apply list_filter_iff. intros a.
      unfold is_selected. split; [|tauto]. intros Ha. split; [done|]. congruence.
Qed.

(** ** One pointer-move event *)

Lemma simulate_mouseMove_same pos w :
  winner w pos = hovered w → simulate_mouseMove pos w = (tt, w, []).
Proof.
  intros E. unfold simulate_mouseMove, mbind, M_bind.
  rewrite findButtonAtPosition_spec. unfold get_hoveredButton.
  cbn beta iota zeta. by rewrite bool_decide_false by (by intros []).
Qed.

Lemma simulate_mouseMove_change pos w :
  winner w pos ≠ hovered w →
  self (final (simulate_mouseMove pos w)) =
    MockHotbox.mk (winner w pos) (regions w) ∧
  (∀ a, heap (final (simulate_mouseMove pos w)) a =
        if decide (winner w pos = Some a)
        then MockButton.with_selected (heap w a) true
        else cleared w (regions w) a) ∧
  emitted (simulate_mouseMove pos w) =
    (deselect <$> flagged w) ++ select_winner (winner w pos).
Proof.
  intros NE. unfold simulate_mouseMove, mbind, M_bind.
  rewrite findButtonAtPosition_spec. unfold get_hoveredButton, get_buttons.
  cbn beta iota zeta. rewrite bool_decide_true by done.
  destruct (clear_loop_spec (regions w) w) as (Hs & Hh & He).
  destruct (clear_loop (regions w) w) as [[[] w1] t1].
  unfold final, emitted in Hs, Hh, He. cbn [fst snd] in Hs, Hh, He.
  unfold set_hoveredButton. cbn beta iota zeta. rewrite Hs.
  destruct (winner w pos) as [b|] eqn:Ew.
  - unfold setSelectionStatus, final, emitted. cbn.
    split_and!; [done| |].
    + intros a. destruct (decide (Some b = Some a)) as [[= ->]|Hn].
      * rewrite fn_lookup_insert, Hh. unfold cleared.
        by destruct (decide (a ∈ regions w)).
      * rewrite fn_lookup_insert_ne by congruence. apply Hh.
    + by rewrite He.
  - unfold mret, M_ret, final, emitted. cbn.
    split_and!; [done| |].
    + intros a. apply Hh.
    + by rewrite He.
Qed.

Lemma winner_in_regions w pos a : winner w pos = Some a → a ∈ regions w.
Proof. by intros [? _]%first_hit_elem. Qed.

(** The selection flag of [a] after any event. *)
Lemma selected_after_change pos w a :
  winner w pos ≠ hovered w →
  MockButton.selected (heap (final (simulate_mouseMove pos w)) a) =
  if decide (winner w pos = Some a) then true
  else if decide (a ∈ regions w) then false
  else MockButton.selected (heap w a).
Proof.
  intros NE. destruct (simulate_mouseMove_change pos w NE) as (_ & Hh & _).
  rewrite Hh. unfold cleared.
  destruct (decide (winner w pos = Some a)); [done|].
  by destruct (decide (a ∈ regions w)).
Qed.

(** [simulate_mouseMove] writes selection flags and the hovered
    reference, and nothing else. *)
Lemma simulate_mouseMove_layout pos w :
  same_layout w (final (simulate_mouseMove pos w)).
Proof.
  destruct (decide (winner w pos = hovered w)) as [E|NE].
  - rewrite simulate_mouseMove_same by done. by split.
  - destruct (simulate_mouseMove_change pos w NE) as (Hs & Hh & _).
    split; [by rewrite Hs|]. intros a. rewrite Hh. unfold cleared.
    destruct (decide (winner w pos = Some a)); [done|].
    by destruct (decide (a ∈ regions w)).
Qed.

Lemma hovered_after pos w :
  hovered (final (simulate_mouseMove pos w)) = winner w pos.
Proof.
  destruct (decide (winner w pos = hovered w)) as [E|NE].
  - by rewrite simulate_mouseMove_same.
  - destruct (simulate_mouseMove_change pos w NE) as (Hs & _). by rewrite Hs.
Qed.

(** After a transition the flags agree with the hovered reference,
    whatever they were before. *)
Lemma single_selection_after_change pos w :
  winner w pos ≠ hovered w →
  single_selection (final (simulate_mouseMove pos w)).
Proof.
  intros NE. apply single_selection_alt. intros a Ha Hsel.
  rewrite hovered_after. rewrite selected_after_change in Hsel by done.
  destruct (simulate_mouseMove_change pos w NE) as (Hs & _).
  rewrite Hs in Ha. cbn in Ha.
  destruct (decide (winner w pos = Some a)); [done|].
  by rewrite decide_True in Hsel.
Qed.

Lemma single_selection_step pos w :
  single_selection w → single_selection (final (simulate_mouseMove pos w)).
Proof.
  intros H. destruct (decide (winner w pos = hovered w)) as [E|NE].
  - by rewrite simulate_mouseMove_same.
  - by apply single_selection_after_change.
Qed.

Lemma single_selection_initial w : initial w → single_selection w.
Proof.
  intros [_ H]. apply single_selection_alt. intros a Ha Hs.
  rewrite list.Forall_forall in H. rewrite H in Hs; done.
Qed.

Lemma single_selection_run ps w :
  single_selection w → Forall single_selection (run ps w).
Proof.
  revert w. induction ps as [|p ps IH]; intros w H; cbn [run]; [constructor|].
  constructor; [|apply IH]; by apply single_selection_step.
Qed.

Lemma run_regions ps w : Forall (λ w', regions w' = regions w) (run ps w).
Proof.
  revert w. induction ps as [|p ps IH]; intros w; cbn [run]; [constructor|].
  pose proof (proj1 (simulate_mouseMove_layout p w)) as E.
  constructor; [done|]. rewrite <- E. apply IH.
Qed.

(** The assertion of [test_rapid_movement], for every session on a
    collection without repetitions. *)
Lemma selected_count_run ps w :
  NoDup (regions w) → initial w →
  Forall (λ w', (selected_count w' ≤ 1)%nat) (run ps w).
Proof.
  intros ND Hinit.
  pose proof (single_selection_run ps w (single_selection_initial w Hinit)) as H1.
  pose proof (run_regions ps w) as H2.
  rewrite list.Forall_forall in *. intros w' Hw'.
  rewrite selected_count_flagged by (by rewrite (H2 w' Hw')).
  apply (H1 w' Hw').
Qed.

(** ** The containment test *)

Lemma contains_rect_iff (b : MockButton.t) (p : QPoint.t) :
  QRect.contains (MockButton.rect b) p = true ↔
  (0 ≤ QPoint.x p ≤ fst (MockButton.size b) ∧
   0 ≤ QPoint.y p ≤ snd (MockButton.size b)).
Proof.
  unfold QRect.contains, MockButton.rect. cbn.
  rewrite !andb_true_iff, !Z.leb_le. lia.
Qed.

(** ** Specification claims *)

(** C4: the Coordinate Mapper is total and pure.  For every point
    [(px, py)] of the Container's space and every Region offset
    [(ox, oy)], [mapFrom] returns exactly [(px - ox, py - oy)], whatever
    the Region's name, size and selection flag and whatever widget is
    passed as [source]. *)
Theorem mapFrom_subtracts_offset :
  ∀ (px py ox oy : Z) (name : string) (size : Z * Z) (selected : bool)
    (Source : Type) (source : Source),
    MockButton.mapFrom (MockButton.mk name (ox, oy) size selected) source
                       (QPoint.mk px py)
    = QPoint.mk (px - ox) (py - oy).
Proof. reflexivity. Qed.

(** C9: coordinate mapping round-trips exactly.  Adding the Region's
    offset back to the point [mapFrom] returns reproduces the original
    point. *)
Theorem mapFrom_round_trip :
  ∀ (b : MockButton.t) (Source : Type) (source : Source) (pos : QPoint.t),
    let local := MockButton.mapFrom b source pos in
    QPoint.mk (QPoint.x local + fst (MockButton.parent_pos b))
              (QPoint.y local + snd (MockButton.parent_pos b))
    = pos.
Proof.
  intros b Source source [px py]. unfold MockButton.mapFrom. cbn.
  f_equal; lia.
Qed.

(** C2: the containment test is inclusive on all four edges.  A point
    of a Region's local space is contained iff [0 ≤ x ≤ width] and
    [0 ≤ y ≤ height]; for the Region at offset (10,10) of size (105,35)
    the Container points (10,10), (115,10), (10,45) and (115,45) are
    contained, (9,10) and (116,10) are not. *)
Theorem contains_boundary_inclusive :
  (∀ (b : MockButton.t) (p : QPoint.t),
     QRect.contains (MockButton.rect b) p = true ↔
     (0 ≤ QPoint.x p ≤ fst (MockButton.size b) ∧
      0 ≤ QPoint.y p ≤ snd (MockButton.size b))) ∧
  (let inside p := hit Scenario.hotbox p 0%nat in
   MockButton.parent_pos (heap Scenario.hotbox 0%nat) = (10, 10) ∧
   MockButton.size (heap Scenario.hotbox 0%nat) = (105, 35) ∧
   inside (QPoint.mk 10 10) = true ∧ inside (QPoint.mk 115 10) = true ∧
   inside (QPoint.mk 10 45) = true ∧ inside (QPoint.mk 115 45) = true ∧
   inside (QPoint.mk 9 10) = false ∧ inside (QPoint.mk 116 10) = false).
Proof.
  split; [apply contains_rect_iff|by vm_compute].
Qed.

(** C3: [_findButtonAtPosition] walks the collection in order and
    returns the first Region whose containment test holds, and none when
    no Region contains the point.  When a Region A stands before a
    Region B and the point is inside both, B is not returned; the point
    resolves to A, the first of the two, as soon as no Region before A
    contains it, and in particular in the collection made of A and B. *)
Theorem findButtonAtPosition_first_match :
  ∀ (w : World) (pos : QPoint.t),
    let found := result (_findButtonAtPosition pos w) in
    (∀ a, found = Some a ↔
          ∃ l1 l2, regions w = l1 ++ a :: l2 ∧ hit w pos a = true ∧
                   ∀ b, b ∈ l1 → hit w pos b = false) ∧
    (found = None ↔ ∀ b, b ∈ regions w → hit w pos b = false) ∧
    (∀ A B, regions w = [A; B] →
            hit w pos A = true → hit w pos B = true → found = Some A) ∧
    (∀ l1 A l2 B l3, regions w = l1 ++ A :: l2 ++ B :: l3 →
            hit w pos A = true → hit w pos B = true →
            (B ∉ l1 → B ≠ A → found ≠ Some B) ∧
            ((∀ c, c ∈ l1 → hit w pos c = false) → found = Some A)).
Proof.
  intros w pos found. subst found. rewrite findButtonAtPosition_spec.
  cbn [result fst]. unfold winner. split_and!.
  - intros a. apply first_hit_Some.
  - apply first_hit_None.
  - intros A B -> HA HB. cbn. by rewrite HA.
  - intros l1 A l2 B l3 E HA HB. split.
    + intros HB1 HBA [l1' [l2' (E' & _ & Hno)]]%first_hit_Some.
      rewrite E in E'.
      assert (A ∈ l1') as HAl; [|by rewrite (Hno A HAl) in HA].
      clear -E' HB1 HBA. revert l1' E'.
      induction l1 as [|c l1 IH]; intros [|d l1'] E'; simplify_eq/=.
      * left.
      * exfalso. apply HB1. left.
      * right. apply IH; [|done]. intros ?. apply HB1. by right.
    + intros Hno. apply first_hit_Some. by exists l1, (l2 ++ B :: l3).
Qed.

Lemma findButtonAtPosition_first_match_witness :
  regions Overlap.hotbox = [Overlap.A; Overlap.B] ∧
  hit Overlap.hotbox (QPoint.mk 70 30) Overlap.A = true ∧
  hit Overlap.hotbox (QPoint.mk 70 30) Overlap.B = true ∧
  result (_findButtonAtPosition (QPoint.mk 70 30) Overlap.hotbox)
    = Some Overlap.A.
Proof.
  split_and!; [reflexivity..|].
  pose proof (findButtonAtPosition_first_match Overlap.hotbox (QPoint.mk 70 30))
    as (_ & _ & H & _).
  apply (H Overlap.A Overlap.B); reflexivity.
Defined.

(** C10: [_findButtonAtPosition] changes no state and emits nothing, and
    [simulate_mouseMove] changes nothing but selection flags and the
    hovered reference: the collection (members and order) and every
    Region's name, offset and size are as before, and a button outside
    the collection is untouched. *)
Theorem hover_frame :
  ∀ (w : World) (pos : QPoint.t),
    final (_findButtonAtPosition pos w) = w ∧
    emitted (_findButtonAtPosition pos w) = [] ∧
    let w' := final (simulate_mouseMove pos w) in
    regions w' = regions w ∧
    (∀ a, MockButton.name (heap w' a) = MockButton.name (heap w a) ∧
          MockButton.parent_pos (heap w' a) = MockButton.parent_pos (heap w a) ∧
          MockButton.size (heap w' a) = MockButton.size (heap w a)) ∧
    (∀ a, a ∉ regions w → heap w' a = heap w a).
Proof.
  intros w pos. rewrite findButtonAtPosition_spec.
  split_and!; [done|done|]. cbn zeta. split_and!.
  - apply simulate_mouseMove_layout.
  - apply simulate_mouseMove_layout.
  - intros a Ha. destruct (decide (winner w pos = hovered w)) as [E|NE].
    + by rewrite simulate_mouseMove_same.
    + destruct (simulate_mouseMove_change pos w NE) as (_ & Hh & _).
      rewrite Hh. unfold cleared.
      destruct (decide (winner w pos = Some a)) as [Ew|_].
      * by apply winner_in_regions in Ew.
      * by rewrite decide_False.
Qed.

(** C6: when the winner is the Region already hovered (or both are
    none) [simulate_mouseMove] is a no-op: the world it returns is the
    world it was given (every flag and the hovered reference unchanged)
    and no [setSelectionStatus] call is emitted.  Hence a second event
    whose position maps to the same winner as the first emits nothing. *)
Theorem unchanged_hover_is_noop :
  ∀ (w : World),
    (∀ pos, result (_findButtonAtPosition pos w) = hovered w →
            simulate_mouseMove pos w = (tt, w, [])) ∧
    (∀ p1 p2,
        result (_findButtonAtPosition p1 w) =
        result (_findButtonAtPosition p2 w) →
        let w1 := final (simulate_mouseMove p1 w) in
        simulate_mouseMove p2 w1 = (tt, w1, [])).
Proof.
  intros w. split.
  - intros pos. rewrite findButtonAtPosition_spec. apply simulate_mouseMove_same.
  - intros p1 p2. rewrite !findButtonAtPosition_spec. cbn [result fst].
    intros E. cbn zeta. apply simulate_mouseMove_same.
    rewrite hovered_after, E. apply winner_layout, simulate_mouseMove_layout.
Qed.

Lemma unchanged_hover_is_noop_witness :
  simulate_mouseMove (QPoint.mk 5 5) Scenario.hotbox
    = (tt, Scenario.hotbox, []) ∧
  emitted (simulate_mouseMove (QPoint.mk 70 30)
             (final (simulate_mouseMove (QPoint.mk 62 27) Scenario.hotbox)))
    = [].
Proof.
  split.
  - apply (proj1 (unchanged_hover_is_noop Scenario.hotbox)). reflexivity.
  - rewrite (proj2 (unchanged_hover_is_noop Scenario.hotbox)
               (QPoint.mk 62 27) (QPoint.mk 70 30)); reflexivity.
Defined.

Lemma flagged_nil w :
  (∀ a, a ∈ regions w → MockButton.selected (heap w a) = false) →
  flagged w = [].
Proof.
  intros H. destruct (flagged w) as [|a l] eqn:E; [done|].
  assert (a ∈ flagged w) as [Ha Hs]%elem_of_flagged by (rewrite E; left).
  rewrite H in Hs; done.
Qed.

(** C5: on a transition (the winner differs from the hovered reference)
    [simulate_mouseMove] emits one deselect for every flagged Region of
    the collection, however many there are, then the select of the
    winner if there is one; the hovered reference becomes the winner, the
    winner's flag is set and every other Region's flag is clear, so the
    single-selection invariant holds afterwards whatever the entry
    state. *)
Theorem transition_clears_all_then_selects :
  ∀ (w : World) (pos : QPoint.t),
    let win := result (_findButtonAtPosition pos w) in
    let r := simulate_mouseMove pos w in
    win ≠ hovered w →
    emitted r = (deselect <$> flagged w) ++ select_winner win ∧
    NoDup (flagged w) ∧
    (∀ a, a ∈ flagged w ↔
          a ∈ regions w ∧ MockButton.selected (heap w a) = true) ∧
    hovered (final r) = win ∧
    (∀ a, a ∈ regions w →
          MockButton.selected (heap (final r) a) = bool_decide (win = Some a)) ∧
    single_selection (final r).
Proof.
  intros w pos win r. subst win r. rewrite findButtonAtPosition_spec.
  cbn [result fst]. intros NE.
  destruct (simulate_mouseMove_change pos w NE) as (Hs & Hh & He).
  split_and!.
  - done.
  - apply NoDup_flagged.
  - apply elem_of_flagged.
  - apply hovered_after.
  - intros a Ha. rewrite selected_after_change by done.
    destruct (decide (winner w pos = Some a)).
    + by rewrite bool_decide_true.
    + by rewrite decide_True, bool_decide_false.
  - by apply single_selection_after_change.
Qed.

Lemma transition_clears_all_then_selects_witness :
  let r := simulate_mouseMove (QPoint.mk 62 72) drifted in
  ¬ single_selection drifted ∧
  emitted r = [deselect 0%nat; deselect 1%nat; select 2%nat] ∧
  single_selection (final r).
Proof.
  assert (result (_findButtonAtPosition (QPoint.mk 62 72) drifted)
          ≠ hovered drifted) as NE by (by vm_compute).
  pose proof (transition_clears_all_then_selects drifted (QPoint.mk 62 72) NE)
    as (He & _ & _ & _ & _ & Hinv).
  split_and!.
  - intros [Hlen _]. vm_compute in Hlen. lia.
  - rewrite He. reflexivity.
  - exact Hinv.
Defined.

(** C7: for a position outside every Region, on a state that satisfies
    the single-selection invariant, the winner is none, the hovered
    reference ends up none and no Region is flagged; exactly one
    deselect is emitted if a Region was flagged and none otherwise, and
    no select is emitted. *)
Theorem outside_all_deselects :
  ∀ (w : World) (pos : QPoint.t),
    single_selection w → outside_all w pos →
    let r := simulate_mouseMove pos w in
    result (_findButtonAtPosition pos w) = None ∧
    hovered (final r) = None ∧
    flagged (final r) = [] ∧
    emitted r = deselect <$> flagged w ∧
    (length (emitted r) = length (flagged w) ∧ length (flagged w) ≤ 1)%nat ∧
    (∀ a, select a ∉ emitted r).
Proof.
  intros w pos Hinv Hout r. subst r. rewrite findButtonAtPosition_spec.
  cbn [result fst].
  assert (winner w pos = None) as Ew.
  { apply first_hit_None. by apply list.Forall_forall. }
  assert (emitted (simulate_mouseMove pos w) = deselect <$> flagged w ∧
          flagged (final (simulate_mouseMove pos w)) = []) as [He Hf].
  { destruct (hovered w) as [h|] eqn:Eh.
    - assert (winner w pos ≠ hovered w) as NE by congruence.
      destruct (simulate_mouseMove_change pos w NE) as (Hs & _ & He).
      split; [by rewrite He, Ew, app_nil_r|].
      apply flagged_nil. intros a Ha. rewrite selected_after_change by done.
      rewrite Hs in Ha. cbn in Ha. rewrite Ew.
      by rewrite decide_False, decide_True.
    - rewrite simulate_mouseMove_same by congruence.
      unfold emitted, final. cbn [fst snd].
      by rewrite (single_selection_None w). }
  split_and!; [done| |done|done| | |].
  - by rewrite hovered_after.
  - by rewrite He, length_fmap.
  - apply Hinv.
  - intros a. rewrite He. intros (b & Hb & _)%list_elem_of_fmap. discriminate.
Qed.

Lemma outside_all_deselects_witness :
  let w := final (simulate_mouseMove (QPoint.mk 177 27) Scenario.hotbox) in
  let r := simulate_mouseMove (QPoint.mk 5 5) w in
  single_selection w ∧ outside_all w (QPoint.mk 5 5) ∧
  hovered (final r) = None ∧ emitted r = [deselect 1%nat].
Proof.
  intros w r.
  assert (single_selection w) as Hinv.
  { split; [vm_compute; lia|]. vm_compute. repeat constructor. }
  assert (outside_all w (QPoint.mk 5 5)) as Hout.
  { vm_compute. repeat constructor. }
  pose proof (outside_all_deselects w (QPoint.mk 5 5) Hinv Hout)
    as (_ & Hh & _ & He & _).
  split_and!; [exact Hinv|exact Hout|exact Hh|].
  subst r. rewrite He. reflexivity.
Defined.

(** C1: from the initial state (nothing hovered, no flag set), after
    each event of any sequence of pointer moves at most one Region is
    flagged, and a flagged Region is the one the hovered reference
    designates. *)
Theorem single_selection_invariant :
  ∀ (w : World) (ps : list QPoint.t),
    initial w →
    Forall (λ w', (length (flagged w') ≤ 1)%nat ∧
                  Forall (λ a, hovered w' = Some a) (flagged w'))
           (run ps w).
Proof.
  intros w ps Hinit.
  apply (single_selection_run ps w), single_selection_initial, Hinit.
Qed.

Lemma single_selection_invariant_witness :
  initial Scenario.rapid ∧
  Forall single_selection
    (run [QPoint.mk 62 27; QPoint.mk 177 27; QPoint.mk 62 27;
          QPoint.mk 292 27; QPoint.mk 177 27] Scenario.rapid).
Proof.
  assert (initial Scenario.rapid) as Hinit.
  { split; [reflexivity|]. vm_compute. repeat constructor. }
  split; [exact Hinit|].
  exact (single_selection_invariant Scenario.rapid _ Hinit).
Defined.

(** C8, as stated, fails on a Region of width 0: the inclusive test
    still holds on its left edge, and the Region wins there. *)
Lemma empty_region_counterexample :
  (fst (MockButton.size (heap Degenerate.empty 0%nat)) ≤ 0 ∧
   hit Degenerate.empty (QPoint.mk 10 20) 0%nat = true ∧
   result (_findButtonAtPosition (QPoint.mk 10 20) Degenerate.empty)
     = Some 0%nat) ∧
  ¬ (∀ (b : MockButton.t) (p : QPoint.t),
       fst (MockButton.size b) ≤ 0 ∨ snd (MockButton.size b) ≤ 0 →
       QRect.contains (MockButton.rect b) p = false).
Proof.
  split; [by vm_compute|]. intros H.
  specialize (H (heap Degenerate.empty 0%nat) (QPoint.mk 0 10)).
  cbn in H. discriminate H. left. lia.
Qed.

(** C8, amended: an inverted rectangle never contains any point.  For
    every Region whose width is < 0 or whose height is < 0 the
    containment test is false at every point, so such a Region is never
    returned as the winner. *)
Theorem inverted_region_never_contains :
  ∀ (w : World) (pos : QPoint.t) (a : addr),
    fst (MockButton.size (heap w a)) < 0 ∨
    snd (MockButton.size (heap w a)) < 0 →
    (∀ p, QRect.contains (MockButton.rect (heap w a)) p = false) ∧
    hit w pos a = false ∧
    result (_findButtonAtPosition pos w) ≠ Some a.
Proof.
  intros w pos a Hneg.
  assert (∀ p, QRect.contains (MockButton.rect (heap w a)) p = false) as Hc.
  { intros p. apply not_true_is_false.
    intros [Hx Hy]%contains_rect_iff. lia. }
  split_and!; [done|apply Hc|].
  rewrite findButtonAtPosition_spec. cbn [result fst].
  intros [_ Hhit]%first_hit_elem. unfold hit in Hhit. by rewrite Hc in Hhit.
Qed.

Lemma inverted_region_never_contains_witness :
  fst (MockButton.size (heap Degenerate.inverted 0%nat)) < 0 ∧
  hit Degenerate.inverted (QPoint.mk 8 20) 0%nat = false ∧
  result (_findButtonAtPosition (QPoint.mk 8 20) Degenerate.inverted)
    ≠ Some 0%nat.
Proof.
  assert (fst (MockButton.size (heap Degenerate.inverted 0%nat)) < 0) as Hneg
    by (cbn; lia).
  split; [exact Hneg|].
  exact (proj2 (inverted_region_never_contains Degenerate.inverted
                  (QPoint.mk 8 20) 0%nat (or_introl Hneg))).
Defined.

(** ** Further properties of the hover selector *)

Lemma hit_iff w pos a :
  hit w pos a = true ↔
  (fst (MockButton.parent_pos (heap w a)) ≤ QPoint.x pos
     ≤ fst (MockButton.parent_pos (heap w a)) + fst (MockButton.size (heap w a)) ∧
   snd (MockButton.parent_pos (heap w a)) ≤ QPoint.y pos
     ≤ snd (MockButton.parent_pos (heap w a)) + snd (MockButton.size (heap w a))).
Proof.
  unfold hit. rewrite contains_rect_iff. unfold MockButton.mapFrom. cbn. lia.
Qed.

(** X1: the test [_findButtonAtPosition] makes for a button, mapping the
    position into the button's space and asking its [rect()], is the
    inclusive test against the rectangle the button occupies in the
    hotbox: offset ≤ position ≤ offset + size on both axes. *)
Theorem hit_in_container_space :
  ∀ (w : World) (pos : QPoint.t) (a : addr),
    let b := heap w a in
    QRect.contains (MockButton.rect b) (MockButton.mapFrom b (self w) pos) =
    QRect.contains
      (QRect.mk (fst (MockButton.parent_pos b)) (snd (MockButton.parent_pos b))
                (fst (MockButton.size b)) (snd (MockButton.size b)))
      pos.
Proof.
  intros w pos a b. unfold QRect.contains, MockButton.rect, MockButton.mapFrom.
  cbn. apply Bool.eq_iff_eq_true. rewrite !andb_true_iff, !Z.leb_le. lia.
Qed.

(** *** Flags and hovered reference agree *)

Lemma agree_alt w :
  agree w ↔
  (∀ a, a ∈ regions w →
        (MockButton.selected (heap w a) = true ↔ hovered w = Some a)) ∧
  (∀ h, hovered w = Some h → h ∈ regions w).
Proof.
  unfold agree. split.
  - intros E. split.
    + intros a Ha. split.
      * intros Hs. assert (a ∈ flagged w) as Hin by (by apply elem_of_flagged).
        rewrite E in Hin. destruct (hovered w) as [h|]; cbn in Hin.
        -- apply list_elem_of_singleton in Hin. by subst.
        -- by apply elem_of_nil in Hin.
      * intros Hh. rewrite Hh in E. cbn in E.
        assert (a ∈ flagged w) as Hin by (rewrite E; left).
        by apply elem_of_flagged in Hin as [_ ?].
    + intros h Hh. rewrite Hh in E. cbn in E.
      assert (h ∈ flagged w) as Hin by (rewrite E; left).
      by apply elem_of_flagged in Hin as [? _].
  - intros [Hf Hh]. destruct (hovered w) as [h|] eqn:Eh; cbn.
    + destruct (NoDup_all_same (flagged w) h (NoDup_flagged w)) as [E|E]; [| |done].
      * intros a [Ha Hs]%elem_of_flagged. apply Hf in Hs; [congruence|done].
      * assert (h ∈ flagged w) as Hin; [|by rewrite E in Hin; apply elem_of_nil in Hin].
        apply elem_of_flagged. split; [by apply Hh|]. apply Hf; [by apply Hh|done].
    + apply flagged_nil. intros a Ha. apply not_true_is_false. intros Hs.
      apply Hf in Hs; done.
Qed.

Lemma agree_initial w : initial w → agree w.
Proof.
  intros [Eh H]. unfold agree. rewrite Eh. cbn. apply flagged_nil.
  by apply list.Forall_forall.
Qed.

Lemma agree_single_selection w : agree w → single_selection w.
Proof.
  intros E. apply single_selection_alt. intros a Ha Hs.
  by apply (proj1 (agree_alt w) E).
Qed.

(** After a transition the flags are exactly the winner, whatever the
    entry state. *)
Lemma agree_after_change pos w :
  winner w pos ≠ hovered w → agree (final (simulate_mouseMove pos w)).
Proof.
  intros NE. apply agree_alt.
  destruct (simulate_mouseMove_change pos w NE) as (Hs & _ & _).
  rewrite Hs. cbn [MockHotbox.buttons MockHotbox.hoveredButton]. split.
  - intros a Ha. rewrite selected_after_change by done.
    destruct (decide (winner w pos = Some a)); [done|].
    rewrite decide_True by done. split; [done|congruence].
  - intros h. apply winner_in_regions.
Qed.

Lemma agree_step pos w : agree w → agree (final (simulate_mouseMove pos w)).
Proof.
  intros H. destruct (decide (winner w pos = hovered w)) as [E|NE].
  - by rewrite simulate_mouseMove_same.
  - by apply agree_after_change.
Qed.

Lemma agree_run ps w : agree w → Forall agree (run ps w).
Proof.
  revert w. induction ps as [|p ps IH]; intros w H; cbn [run]; [constructor|].
  constructor; [|apply IH]; by apply agree_step.
Qed.

(** X2: from the initial state, after each event of any session the
    flagged Regions are exactly the hovered one (none when nothing is
    hovered): the hovered Region is a member of the collection and is
    flagged, and no other Region is. *)
Theorem flags_agree_with_hovered :
  ∀ (w : World) (ps : list QPoint.t),
    initial w →
    Forall (λ w', flagged w' = option_list (hovered w') ∧
                  ∀ h, hovered w' = Some h →
                       h ∈ regions w' ∧ MockButton.selected (heap w' h) = true)
           (run ps w).
Proof.
  intros w ps Hinit.
  pose proof (agree_run ps w (agree_initial w Hinit)) as H.
  rewrite list.Forall_forall in *. intros w' Hw'. specialize (H w' Hw').
  split; [exact H|]. intros h Hh.
  apply elem_of_flagged. rewrite H, Hh. left.
Qed.

Lemma flags_agree_with_hovered_witness :
  initial Scenario.hotbox ∧
  Forall agree
    (run [QPoint.mk 62 27; QPoint.mk 177 27; QPoint.mk 5 5] Scenario.hotbox).
Proof.
  assert (initial Scenario.hotbox) as Hinit.
  { split; [reflexivity|]. vm_compute. repeat constructor. }
  split; [exact Hinit|].
  pose proof (flags_agree_with_hovered Scenario.hotbox
                [QPoint.mk 62 27; QPoint.mk 177 27; QPoint.mk 5 5] Hinit) as H.
  rewrite list.Forall_forall in *. intros w' Hw'. exact (proj1 (H w' Hw')).
Defined.

(** X3: drift is repaired by the first transition and stays repaired.
    From any entry state, if the first event of a session changes the
    hovered reference, then after that event and after every later one
    the flagged Regions are exactly the hovered one. *)
Theorem transition_repairs_drift :
  ∀ (w : World) (p : QPoint.t) (ps : list QPoint.t),
    result (_findButtonAtPosition p w) ≠ hovered w →
    Forall (λ w', flagged w' = option_list (hovered w')) (run (p :: ps) w).
Proof.
  intros w p ps. rewrite findButtonAtPosition_spec. cbn [result fst]. intros NE.
  cbn [run]. pose proof (agree_after_change p w NE) as H.
  constructor; [exact H|]. by apply (agree_run ps).
Qed.

Lemma transition_repairs_drift_witness :
  ¬ agree drifted ∧
  Forall agree (run [QPoint.mk 62 72; QPoint.mk 5 5; QPoint.mk 62 27] drifted).
Proof.
  split; [by vm_compute|].
  apply (transition_repairs_drift drifted (QPoint.mk 62 72)). by vm_compute.
Defined.

(** *** Whole sessions *)

Lemma same_layout_trans w1 w2 w3 :
  same_layout w1 w2 → same_layout w2 w3 → same_layout w1 w3.
Proof.
  intros [E1 H1] [E2 H2]. split; [congruence|]. intros a.
  destruct (H1 a) as (? & ? & ?), (H2 a) as (? & ? & ?).
  split_and!; congruence.
Qed.

Lemma play_snoc ps p w :
  play (ps ++ [p]) w = final (simulate_mouseMove p (play ps w)).
Proof. unfold play. by rewrite foldl_app. Qed.

Lemma play_cons p ps w :
  play (p :: ps) w = play ps (final (simulate_mouseMove p w)).
Proof. done. Qed.

Lemma play_layout ps w : same_layout w (play ps w).
Proof.
  revert w. induction ps as [|p ps IH]; intros w.
  - by split.
  - rewrite play_cons. eapply same_layout_trans; [|apply IH].
    apply simulate_mouseMove_layout.
Qed.

Lemma agree_play ps w : agree w → agree (play ps w).
Proof.
  revert w. induction ps as [|p ps IH]; intros w H; [done|].
  rewrite play_cons. by apply IH, agree_step.
Qed.

(** X4: the highlight tracks the pointer and keeps no history.  After
    any session from the initial state, the hovered reference is the
    Region [_findButtonAtPosition] finds for the last position alone, and
    a Region of the collection is flagged iff it is that Region; where
    the pointer went before makes no difference. *)
Theorem highlight_tracks_pointer :
  ∀ (w : World) (ps : list QPoint.t) (p : QPoint.t),
    initial w →
    let w' := play (ps ++ [p]) w in
    let found := result (_findButtonAtPosition p w) in
    hovered w' = found ∧
    flagged w' = option_list found ∧
    (∀ a, a ∈ regions w →
          MockButton.selected (heap w' a) = bool_decide (found = Some a)).
Proof.
  intros w ps p Hinit w' found. subst w' found.
  rewrite findButtonAtPosition_spec. cbn [result fst].
  assert (hovered (play (ps ++ [p]) w) = winner w p) as Eh.
  { rewrite play_snoc, hovered_after. apply winner_layout, play_layout. }
  pose proof (agree_play (ps ++ [p]) w (agree_initial w Hinit)) as Hag.
  split_and!; [done|by rewrite <- Eh| ].
  intros a Ha. apply agree_alt in Hag as [Hf _].
  rewrite <- (proj1 (play_layout (ps ++ [p]) w)) in Ha.
  specialize (Hf a Ha). rewrite Eh in Hf.
  destruct (MockButton.selected _).
  - by rewrite bool_decide_true by (by apply Hf).
  - rewrite bool_decide_false; [done|]. intros E. by apply Hf in E.
Qed.

Lemma highlight_tracks_pointer_witness :
  initial Scenario.rapid ∧
  hovered (play [QPoint.mk 62 27; QPoint.mk 292 27; QPoint.mk 177 27]
                Scenario.rapid) = Some 1%nat.
Proof.
  assert (initial Scenario.rapid) as Hinit.
  { split; [reflexivity|]. vm_compute. repeat constructor. }
  split; [exact Hinit|].
  exact (proj1 (highlight_tracks_pointer Scenario.rapid
                  [QPoint.mk 62 27; QPoint.mk 292 27] (QPoint.mk 177 27) Hinit)).
Defined.

Lemma select_winner_option_list o :
  select_winner o = select <$> option_list o.
Proof. by destruct o. Qed.

Lemma emitted_agree pos w :
  agree w →
  emitted (simulate_mouseMove pos w) =
  if decide (winner w pos = hovered w) then []
  else (deselect <$> option_list (hovered w)) ++
       (select <$> option_list (winner w pos)).
Proof.
  intros Hag. destruct (decide (winner w pos = hovered w)) as [E|NE].
  - by rewrite simulate_mouseMove_same.
  - destruct (simulate_mouseMove_change pos w NE) as (_ & _ & He).
    by rewrite He, Hag, select_winner_option_list.
Qed.

(** X5: what one event emits once flags and hovered reference agree.
    Nothing when the winner is the hovered Region; otherwise the
    deselect of the Region hovered before (if there was one) followed by
    the select of the winner (if there is one), so never more than two
    calls and never a select before a deselect. *)
Theorem event_emits_deselect_then_select :
  ∀ (w : World) (pos : QPoint.t),
    flagged w = option_list (hovered w) →
    let found := result (_findButtonAtPosition pos w) in
    let t := emitted (simulate_mouseMove pos w) in
    t = (if decide (found = hovered w) then []
         else (deselect <$> option_list (hovered w)) ++
              (select <$> option_list found)) ∧
    (length t ≤ 2)%nat.
Proof.
  intros w pos Hag found t. subst found t.
  rewrite findButtonAtPosition_spec. cbn [result fst].
  rewrite (emitted_agree pos w Hag). split; [done|].
  destruct (decide _); [cbn; lia|].
  rewrite length_app, !length_fmap.
  destruct (hovered w), (winner w pos); cbn; lia.
Qed.

Lemma event_emits_deselect_then_select_witness :
  let w := final (simulate_mouseMove (QPoint.mk 62 27) Scenario.hotbox) in
  agree w ∧
  emitted (simulate_mouseMove (QPoint.mk 177 27) w)
    = [deselect 0%nat; select 1%nat].
Proof.
  intros w. assert (agree w) as Hag by (by vm_compute).
  split; [exact Hag|].
  rewrite (proj1 (event_emits_deselect_then_select w (QPoint.mk 177 27) Hag)).
  reflexivity.
Defined.

Lemma replay_app cur t1 t2 :
  replay cur (t1 ++ t2) = replay cur t1 ≫= λ c, replay c t2.
Proof.
  revert cur. induction t1 as [|[a []] t1 IH]; intros cur; cbn; [done| |].
  - destruct cur; [done|]. apply IH.
  - destruct (decide (cur = Some a)); [apply IH|done].
Qed.

Lemma replay_event pos w :
  agree w →
  replay (hovered w) (emitted (simulate_mouseMove pos w)) =
  Some (hovered (final (simulate_mouseMove pos w))).
Proof.
  intros Hag. rewrite hovered_after, (emitted_agree pos w Hag).
  destruct (decide _) as [E|NE]; [by rewrite E|].
  destruct (hovered w) as [h|], (winner w pos) as [b|]; cbn; try done.
  all: by rewrite decide_True.
Qed.

Lemma replay_session ps w :
  agree w →
  replay (hovered w) (session_trace ps w) = Some (hovered (play ps w)).
Proof.
  revert w. induction ps as [|p ps IH]; intros w Hag; [done|].
  cbn [session_trace]. rewrite play_cons, replay_app, (replay_event p w Hag).
  by apply IH, agree_step.
Qed.

(** X6: the calls of a whole session follow the highlight protocol.
    From the initial state, every select happens while no Region is
    highlighted, every deselect is of the Region highlighted at that
    moment, and the Region left highlighted at the end is the hovered
    one. *)
Theorem session_trace_is_well_bracketed :
  ∀ (w : World) (ps : list QPoint.t),
    initial w →
    replay None (session_trace ps w) = Some (hovered (play ps w)).
Proof.
  intros w ps Hinit. rewrite <- (proj1 Hinit) at 1.
  apply replay_session, agree_initial, Hinit.
Qed.

Lemma session_trace_is_well_bracketed_witness :
  initial Scenario.rapid ∧
  session_trace [QPoint.mk 62 27; QPoint.mk 177 27; QPoint.mk 177 30;
                 QPoint.mk 5 5] Scenario.rapid
    = [select 0%nat; deselect 0%nat; select 1%nat; deselect 1%nat] ∧
  replay None
    (session_trace [QPoint.mk 62 27; QPoint.mk 177 27; QPoint.mk 177 30;
                    QPoint.mk 5 5] Scenario.rapid) = Some None.
Proof.
  assert (initial Scenario.rapid) as Hinit.
  { split; [reflexivity|]. vm_compute. repeat constructor. }
  split_and!; [exact Hinit|reflexivity|].
  rewrite (session_trace_is_well_bracketed Scenario.rapid _ Hinit). reflexivity.
Defined.

(** *** Repeated members, shared edges and the order of the collection *)

Lemma filter_ext_elem (P Q : addr → Prop)
    `{∀ x, Decision (P x)} `{∀ x, Decision (Q x)} (l : list addr) :
  (∀ x, x ∈ l → P x ↔ Q x) → filter P l = filter Q l.
Proof.
  induction l as [|c l IH]; intros HPQ; [done|].
  rewrite !filter_cons, IH by (intros x Hx; apply HPQ; by right).
  pose proof (HPQ c (list_elem_of_here c l)) as Hc.
  destruct (decide (P c)), (decide (Q c)); tauto.
Qed.

(** X7: the script's count is a count of list entries.  After a
    transition it is the number of times the winner is listed in
    [buttons] (0 when there is no winner), so a button listed twice
    makes [sum(1 for btn in hotbox.buttons if btn.selected)] 2 although a
    single object is selected. *)
Theorem selected_count_counts_entries :
  ∀ (w : World) (pos : QPoint.t),
    let found := result (_findButtonAtPosition pos w) in
    found ≠ hovered w →
    selected_count (final (simulate_mouseMove pos w)) =
    match found with
    | Some a => length (filter (λ b, b = a) (regions w))
    | None => 0%nat
    end.
Proof.
  intros w pos found. subst found. rewrite findButtonAtPosition_spec.
  cbn [result fst]. intros NE. unfold selected_count.
  destruct (simulate_mouseMove_change pos w NE) as (Hs & _ & _).
  rewrite Hs. cbn [MockHotbox.buttons].
  rewrite (filter_ext_elem _ (λ b, winner w pos = Some b)).
  - destruct (winner w pos) as [a|].
    + f_equal. apply list_filter_iff. intros b. split; congruence.
    + clear. induction (regions w) as [|c l IH]; [done|].
      by rewrite filter_cons, decide_False.
  - intros b Hb. unfold is_selected. rewrite selected_after_change by done.
    destruct (decide (winner w pos = Some b)); [done|].
    by rewrite decide_True.
Qed.

Lemma selected_count_counts_entries_witness :
  let r := simulate_mouseMove (QPoint.mk 62 27) repeated in
  selected_count (final r) = 2%nat ∧
  length (flagged (final r)) = 1%nat ∧
  emitted r = [select 0%nat].
Proof.
  split_and!; [|reflexivity..].
  rewrite (selected_count_counts_entries repeated (QPoint.mk 62 27));
    [reflexivity|by vm_compute].
Defined.

(** X8: the edge two side-by-side buttons share belongs to both, and so
    to the one listed first.  With B placed exactly at A's right edge,
    every point of that edge within both heights is inside A and inside
    B, and a hotbox holding the two resolves it to whichever comes first
    in [buttons]. *)
Theorem shared_edge_goes_to_first :
  ∀ (w : World) (A B : addr) (y : Z),
    let a := heap w A in
    let b := heap w B in
    let edge := QPoint.mk (fst (MockButton.parent_pos a) + fst (MockButton.size a)) y in
    0 ≤ fst (MockButton.size a) → 0 ≤ fst (MockButton.size b) →
    fst (MockButton.parent_pos b) =
      fst (MockButton.parent_pos a) + fst (MockButton.size a) →
    snd (MockButton.parent_pos a) ≤ y
      ≤ snd (MockButton.parent_pos a) + snd (MockButton.size a) →
    snd (MockButton.parent_pos b) ≤ y
      ≤ snd (MockButton.parent_pos b) + snd (MockButton.size b) →
    hit w edge A = true ∧ hit w edge B = true ∧
    (regions w = [A; B] → result (_findButtonAtPosition edge w) = Some A) ∧
    (regions w = [B; A] → result (_findButtonAtPosition edge w) = Some B).
Proof.
  intros w A B y a b edge Ha Hb Hx Hya Hyb. subst a b edge.
  assert (hit w (QPoint.mk (fst (MockButton.parent_pos (heap w A)) +
                            fst (MockButton.size (heap w A))) y) A = true) as HA.
  { apply hit_iff. cbn. lia. }
  assert (hit w (QPoint.mk (fst (MockButton.parent_pos (heap w A)) +
                            fst (MockButton.size (heap w A))) y) B = true) as HB.
  { apply hit_iff. cbn. lia. }
  rewrite findButtonAtPosition_spec. cbn [result fst]. unfold winner.
  split_and!; [done|done| |]; intros ->; cbn [first_hit].
  - by rewrite HA.
  - by rewrite HB.
Qed.

Lemma shared_edge_goes_to_first_witness :
  result (_findButtonAtPosition (QPoint.mk 115 20) Adjacent.hotbox)
    = Some Adjacent.left ∧
  result (_findButtonAtPosition (QPoint.mk 115 20) Adjacent.swapped)
    = Some Adjacent.right.
Proof.
  split.
  - refine (proj1 (proj2 (proj2 (shared_edge_goes_to_first Adjacent.hotbox
              Adjacent.left Adjacent.right 20 _ _ _ _ _))) eq_refl);
      vm_compute; try split; congruence.
  - refine (proj2 (proj2 (proj2 (shared_edge_goes_to_first Adjacent.swapped
              Adjacent.left Adjacent.right 20 _ _ _ _ _))) eq_refl);
      vm_compute; try split; congruence.
Defined.

Lemma winner_unique_hit w pos a :
  (∀ b c, b ∈ regions w → c ∈ regions w →
          hit w pos b = true → hit w pos c = true → b = c) →
  winner w pos = Some a ↔ a ∈ regions w ∧ hit w pos a = true.
Proof.
  intros Huniq. split; [apply first_hit_elem|]. intros [Ha Hhit].
  destruct (winner w pos) as [b|] eqn:E.
  - f_equal. apply first_hit_elem in E as [Hb Hbhit]. by apply Huniq.
  - unfold winner in E. rewrite first_hit_None in E.
    rewrite E in Hhit; done.
Qed.

(** X9: the order of [buttons] only matters where buttons overlap.  If
    at a position no two different buttons of the collection both
    contain it, then reordering the collection does not change what
    [_findButtonAtPosition] returns there. *)
Theorem order_irrelevant_without_overlap :
  ∀ (w w' : World) (pos : QPoint.t),
    heap w' = heap w →
    regions w' ≡ₚ regions w →
    (∀ b c, b ∈ regions w → c ∈ regions w →
            hit w pos b = true → hit w pos c = true → b = c) →
    result (_findButtonAtPosition pos w') = result (_findButtonAtPosition pos w).
Proof.
  intros w w' pos Hheap Hperm Huniq. rewrite !findButtonAtPosition_spec.
  cbn [result fst].
  assert (∀ b, hit w' pos b = hit w pos b) as Hhit.
  { intros b. unfold hit, MockButton.mapFrom. by rewrite Hheap. }
  assert (∀ b c, b ∈ regions w' → c ∈ regions w' →
                 hit w' pos b = true → hit w' pos c = true → b = c) as Huniq'.
  { intros b c Hb Hc. rewrite !Hhit. rewrite Hperm in Hb, Hc. by apply Huniq. }
  destruct (winner w pos) as [a|] eqn:E.
  - apply winner_unique_hit; [done|].
    apply (winner_unique_hit w pos a Huniq) in E as [Ha Hahit].
    by rewrite Hperm, Hhit.
  - unfold winner in *. rewrite first_hit_None in *.
    intros b Hb. rewrite Hhit. apply E. by rewrite <- Hperm.
Qed.

Lemma order_irrelevant_without_overlap_witness :
  result (_findButtonAtPosition (QPoint.mk 177 27)
            (mkWorld (heap Scenario.hotbox) (MockHotbox.mk None [2; 1; 0]%nat)))
  = result (_findButtonAtPosition (QPoint.mk 177 27) Scenario.hotbox).
Proof.
  apply order_irrelevant_without_overlap.
  - reflexivity.
  - exact (reverse_Permutation [0; 1; 2]%nat).
  - intros b c Hb Hc. cbn in Hb, Hc.
    repeat (apply elem_of_cons in Hb as [->|Hb]);
    repeat (apply elem_of_cons in Hc as [->|Hc]);
    try (by apply elem_of_nil in Hb); try (by apply elem_of_nil in Hc);
    vm_compute; congruence.
Defined.

(** ** The deployment script *)

Example deploy_ready :
  returned (copy_hotbox_files Studio.ready) = true ∧
  calls (transcript (copy_hotbox_files Studio.ready)) =
    [PathExists "/home/artist/W_hotbox_v1.9" true; PathExists dest_dir true;
     PathExists Studio.source1 true; PathExists Studio.dest1 true;
     Copy2 Studio.dest1 (Studio.dest1 +:+ ".backup") None;
     Copy2 Studio.source1 Studio.dest1 None;
     PathExists Studio.source2 true; PathExists Studio.dest2 false;
     Copy2 Studio.source2 Studio.dest2 None].
Proof. by vm_compute. Qed.

Example deploy_protected :
  returned (main Studio.protected) = 1%nat ∧
  Stdout "Successfully copied 1 out of 2 files"
    ∈ transcript (main Studio.protected).
Proof. split; [by vm_compute|]. vm_compute. repeat constructor. Qed.

(** Two closed strings that differ. *)
Ltac string_contra H :=
  exfalso; apply String.eqb_eq in H; vm_compute in H; discriminate H.

(** Split a membership in an explicit list into its cases. *)
Ltac elem_cases H :=
  repeat match type of H with
         | _ ∈ _ ++ _ => apply elem_of_app in H as [H|H]
         | _ ∈ _ :: _ => apply elem_of_cons in H as [H|H]
         | _ ∈ [] => by apply elem_of_nil in H
         end.

Section script_runs.
Context {FS : Type} `{!Os FS}.

Lemma calls_app t1 t2 : calls (t1 ++ t2) = calls t1 ++ calls t2.
Proof. apply filter_app. Qed.

(** One turn of the loop, seen from outside. *)
Lemma loop_body_run source_dir filename n (fs : FS) :
  let r := loop_body source_dir filename n fs in
  ∃ counted,
    file_run fs (path_join source_dir filename) (dest_file_of filename)
             (calls (transcript r)) counted (left_fs r) ∧
    returned r = (if counted then S n else n).
Proof.
  cbn zeta. unfold loop_body, try_body, dest_file_of, mbind, IO_bind,
    path_exists, copy2, print, mret, IO_ret.
  cbn beta iota zeta.
  generalize (path_join source_dir filename) (path_join dest_dir filename).
  intros s d.
  destruct (os_path_exists fs s) eqn:Es; cbn [negb].
  2:{ exists false. split; [|done]. by constructor. }
  destruct (os_path_exists fs d) eqn:Ed.
  - destruct (shutil_copy2 d (d +:+ ".backup") fs) as [[e|] fs1] eqn:Eb.
    + exists false. split; [|by destruct e].
      destruct e; by eapply run_backup_failed.
    + destruct (shutil_copy2 s d fs1) as [[e|] fs2] eqn:Ec.
      * exists false. split; [|by destruct e].
        destruct e; by apply (run_backed_up fs s d (Some _) fs1 fs2).
      * exists true. split; [|done].
        by apply (run_backed_up fs s d None fs1 fs2).
  - destruct (shutil_copy2 s d fs) as [[e|] fs2] eqn:Ec.
    + exists false. split; [|by destruct e].
      destruct e; by apply (run_fresh fs s d (Some _) fs2).
    + exists true. split; [|done].
      by apply (run_fresh fs s d None fs2).
Qed.

(** A whole run, seen from outside. *)
Lemma copy_hotbox_files_run (fs : FS) :
  let r := copy_hotbox_files fs in
  let sd := source_dir_of (os_getcwd fs) in
  let s1 := source_file_of (os_getcwd fs) "W_hotbox.py" in
  let s2 := source_file_of (os_getcwd fs) "W_hotboxManager.py" in
  (os_path_exists fs sd = false ∧ calls (transcript r) = [PathExists sd false] ∧
   returned r = false ∧ left_fs r = fs) ∨
  (os_path_exists fs sd = true ∧ os_path_exists fs dest_dir = false ∧
   calls (transcript r) = [PathExists sd true; PathExists dest_dir false] ∧
   returned r = false ∧ left_fs r = fs) ∨
  (os_path_exists fs sd = true ∧ os_path_exists fs dest_dir = true ∧
   ∃ c1 k1 fs1 c2 k2,
     file_run fs s1 (dest_file_of "W_hotbox.py") c1 k1 fs1 ∧
     file_run fs1 s2 (dest_file_of "W_hotboxManager.py") c2 k2 (left_fs r) ∧
     calls (transcript r) =
       [PathExists sd true; PathExists dest_dir true] ++ c1 ++ c2 ∧
     returned r = k1 && k2).
Proof.
  cbn zeta. unfold copy_hotbox_files, source_file_of, source_dir_of.
  unfold files_to_copy. cbn [copy_loop].
  unfold mbind, IO_bind, getcwd, print, path_exists, mret, IO_ret.
  cbn beta iota zeta.
  generalize (path_join (os_getcwd fs) "W_hotbox_v1.9"). intros sd.
  destruct (os_path_exists fs sd) eqn:Esd; cbn [negb].
  2:{ left. by split_and!. }
  right.
  destruct (os_path_exists fs dest_dir) eqn:Edd; cbn [negb].
  2:{ left. by split_and!. }
  right. split_and!; [done..|].
  pose proof (loop_body_run sd "W_hotbox.py" 0 fs) as (k1 & Hrun1 & Hn1).
  destruct (loop_body sd "W_hotbox.py" 0 fs) as [[n1 fs1] t1].
  unfold transcript, left_fs, returned in Hrun1, Hn1. cbn [fst snd] in Hrun1, Hn1.
  pose proof (loop_body_run sd "W_hotboxManager.py" n1 fs1) as (k2 & Hrun2 & Hn2).
  destruct (loop_body sd "W_hotboxManager.py" n1 fs1) as [[n2 fs2] t2].
  unfold transcript, left_fs, returned in Hrun2, Hn2. cbn [fst snd] in Hrun2, Hn2.
  exists (calls t1), k1, fs1, (calls t2), k2.
  assert (bool_decide (n2 = length ["W_hotbox.py"; "W_hotboxManager.py"])
          = k1 && k2) as Hk.
  { subst n1 n2. by destruct k1, k2. }
  rewrite Hk. destruct (k1 && k2);
    unfold transcript, left_fs, returned; cbn [fst snd];
    (split_and!; [done|done| |done]);
    rewrite !calls_app, !app_nil_r; cbn; by rewrite ?app_nil_r.
Qed.

Lemma elem_of_calls (e : Event) t : e ∈ calls t ↔ e ∈ t ∧ is_call e = true.
Proof. unfold calls. rewrite list_elem_of_filter. tauto. Qed.

Lemma in_calls (e : Event) t : e ∈ t → is_call e = true → e ∈ calls t.
Proof. intros. by apply elem_of_calls. Qed.

Lemma copy2_in_calls src dst o t : Copy2 src dst o ∈ t ↔ Copy2 src dst o ∈ calls t.
Proof. rewrite elem_of_calls. cbn. tauto. Qed.

(** X10: without its directories the script does nothing.  If the
    source directory [<cwd>/W_hotbox_v1.9] or the destination directory
    does not exist, [copy_hotbox_files] returns [False] without a single
    [shutil.copy2] call and leaves the file system as it found it. *)
Theorem copy_aborts_without_directories :
  ∀ (fs : FS),
    os_path_exists fs (path_join (os_getcwd fs) "W_hotbox_v1.9") = false ∨
    os_path_exists fs dest_dir = false →
    let r := copy_hotbox_files fs in
    returned r = false ∧ left_fs r = fs ∧
    ∀ src dst raised, Copy2 src dst raised ∉ transcript r.
Proof.
  intros fs Hmiss r. subst r.
  destruct (copy_hotbox_files_run fs)
    as [(_ & Hc & Hr & Hl)|[(_ & _ & Hc & Hr & Hl)|(Es & Ed & _)]].
  - split_and!; [done..|]. intros src dst o. rewrite copy2_in_calls, Hc.
    intros [=]%list_elem_of_singleton.
  - split_and!; [done..|]. intros src dst o. rewrite copy2_in_calls, Hc.
    intros [[=]|[=]%list_elem_of_singleton]%elem_of_cons.
  - unfold source_dir_of in Es. destruct Hmiss; congruence.
Qed.



Lemma run_destinations (fs fs' : FS) s d c k src dst o :
  file_run fs s d c k fs' → Copy2 src dst o ∈ c →
  dst = d ∨ dst = d +:+ ".backup".
Proof.
  inversion 1; subst; intros Hin; elem_cases Hin; simplify_eq; auto.
Qed.

Lemma copies_calls t : copies (calls t) = copies t.
Proof.
  unfold copies, calls. rewrite list_filter_filter. apply list_filter_iff.
  intros e. destruct e; cbn; intuition congruence.
Qed.

Lemma run_copies (fs fs' : FS) s d c k :
  file_run fs s d c k fs' → (length (copies c) ≤ 2)%nat.
Proof. inversion 1; subst; vm_compute; lia. Qed.



(** X12: every copy goes to one of four fixed paths.  Whatever the
    working directory and whatever the file system answers, each
    [shutil.copy2] call of [copy_hotbox_files] writes to a deployed file
    or to its [.backup], both in the destination directory; there are at
    most four such calls. *)
Theorem copies_confined_to_destination :
  ∀ (fs : FS),
    let t := transcript (copy_hotbox_files fs) in
    (∀ src dst raised, Copy2 src dst raised ∈ t →
       dst ∈ ["/mnt/studio/pipeline/packages/nuke_w_hotbox/nuke16/bin/W_hotbox.py";
              "/mnt/studio/pipeline/packages/nuke_w_hotbox/nuke16/bin/W_hotbox.py.backup";
              "/mnt/studio/pipeline/packages/nuke_w_hotbox/nuke16/bin/W_hotboxManager.py";
              "/mnt/studio/pipeline/packages/nuke_w_hotbox/nuke16/bin/W_hotboxManager.py.backup"]) ∧
    (length (copies t) ≤ 4)%nat.
Proof.
  intros fs t. subst t. rewrite <- copies_calls.
  split.
  - intros src dst o. rewrite copy2_in_calls.
    destruct (copy_hotbox_files_run fs)
      as [(_ & Hc & _)|[(_ & _ & Hc & _)|
          (_ & _ & c1 & k1 & fs1 & c2 & k2 & H1 & H2 & Hc & _)]];
      rewrite Hc; intros Hin; elem_cases Hin; try done.
    + destruct (run_destinations _ _ _ _ _ _ _ _ _ H1 Hin) as [->| ->].
      * left.
      * right. left.
    + destruct (run_destinations _ _ _ _ _ _ _ _ _ H2 Hin) as [->| ->].
      * do 2 right. left.
      * do 3 right. left.
  - destruct (copy_hotbox_files_run fs)
      as [(_ & Hc & _)|[(_ & _ & Hc & _)|
          (_ & _ & c1 & k1 & fs1 & c2 & k2 & H1 & H2 & Hc & _)]];
      rewrite Hc; [vm_compute; lia..|].
    pose proof (run_copies _ _ _ _ _ _ H1). pose proof (run_copies _ _ _ _ _ _ H2).
    unfold copies in *. rewrite !filter_app, !length_app.
    change (length (filter _ [PathExists _ true; PathExists dest_dir true]))
      with 0%nat. lia.
Qed.

Lemma guarded_app protect l1 l2 :
  guarded protect l1 → guarded protect l2 → guarded protect (l1 ++ l2).
Proof.
  intros G1 G2 pre src d raised post E Hd.
  apply app_eq_inv in E as [(k & -> & E)|(k & -> & E)].
  - destruct k as [|e k]; cbn in E.
    + destruct (G2 [] src d raised post) as [(pre' & E')|(pre' & E')];
        [by rewrite <- E|done| |]; by destruct pre'.
    + simplify_eq.
      destruct (G1 pre src d raised k) as [(pre' & ->)|(pre' & ->)]; eauto.
  - destruct (G2 k src d raised post E Hd) as [(pre' & ->)|(pre' & ->)].
    + left. exists (l1 ++ pre'). by rewrite <- app_assoc.
    + right. exists (l1 ++ pre'). by rewrite <- app_assoc.
Qed.

Lemma guarded_no_copy protect l : copies l = [] → guarded protect l.
Proof.
  intros Hl pre src d raised post -> _. exfalso.
  assert (Copy2 src d raised ∈ copies (pre ++ Copy2 src d raised :: post)) as Hin.
  { apply list_elem_of_filter. split; [done|].
    apply elem_of_app. right. left. }
  rewrite Hl in Hin. by apply elem_of_nil in Hin.
Qed.

(** Handling the file with destination [d] is guarded for every set of
    paths that has neither [d]'s backup nor a path other than [d]
    written by it. *)
Lemma run_guarded protect (fs fs' : FS) s d c k :
  d +:+ ".backup" ∉ protect →
  file_run fs s d c k fs' → guarded protect c.
Proof.
  intros Hb. inversion 1; subst; intros pre src d' raised' post E Hd.
  - by destruct pre as [|? [|? ?]].
  - destruct pre as [|? [|? [|? [|? ?]]]]; simplify_eq/=.
    left. by eexists [_].
  - destruct pre as [|? [|? [|? [|? ?]]]]; simplify_eq/=. done.
  - destruct pre as [|? [|? [|? [|? [|? ?]]]]]; simplify_eq/=; [done|].
    right. by eexists [_].
Qed.

(** X13: a deployed file is never overwritten without a backup.  In
    the calls of [copy_hotbox_files], every [shutil.copy2] onto
    [W_hotbox.py] or [W_hotboxManager.py] of the destination directory
    comes immediately after [os.path.exists] answered [False] for that
    path, or immediately after it answered [True] and the file was
    copied to its [.backup] without an exception.  So when the backup
    copy raises, the deployed file is left alone. *)
Theorem overwrite_preceded_by_backup :
  ∀ (fs : FS) (pre post : list Event) (src d : string)
    (raised : option Exception),
    calls (transcript (copy_hotbox_files fs))
      = pre ++ Copy2 src d raised :: post →
    d ∈ [dest_file_of "W_hotbox.py"; dest_file_of "W_hotboxManager.py"] →
    (∃ pre', pre = pre' ++ [PathExists d false]) ∨
    (∃ pre', pre = pre' ++ [PathExists d true;
                            Copy2 d (d +:+ ".backup") None]).
Proof.
  intros fs pre post src d raised.
  assert (guarded [dest_file_of "W_hotbox.py"; dest_file_of "W_hotboxManager.py"]
                  (calls (transcript (copy_hotbox_files fs)))) as G;
    [|apply G].
  destruct (copy_hotbox_files_run fs)
    as [(_ & Hc & _)|[(_ & _ & Hc & _)|
        (_ & _ & c1 & k1 & fs1 & c2 & k2 & H1 & H2 & Hc & _)]];
    rewrite Hc.
  - by apply guarded_no_copy.
  - by apply guarded_no_copy.
  - apply guarded_app; [by apply guarded_no_copy|]. apply guarded_app.
    + eapply run_guarded; [|exact H1].
      intros Hin. elem_cases Hin; string_contra Hin.
    + eapply run_guarded; [|exact H2].
      intros Hin. elem_cases Hin; string_contra Hin.
Qed.

End script_runs.

Lemma copy_aborts_without_directories_witness :
  returned (copy_hotbox_files Studio.elsewhere) = false ∧
  left_fs (copy_hotbox_files Studio.elsewhere) = Studio.elsewhere.
Proof.
  pose proof (copy_aborts_without_directories Studio.elsewhere
                (or_introl eq_refl)) as (Hr & Hl & _).
  by split.
Defined.

(** *** Paths *)

Lemma string_app_cons x (a b : string) : String x a +:+ b = String x (a +:+ b).
Proof. done. Qed.

Lemma string_app_assoc (a b c : string) : (a +:+ b) +:+ c = a +:+ b +:+ c.
Proof.
  induction a as [|x a IH]; [done|]. by rewrite !string_app_cons, IH.
Qed.

Lemma string_length_app (a b : string) :
  String.length (a +:+ b) = (String.length a + String.length b)%nat.
Proof.
  induction a as [|x a IH]; [done|]. rewrite string_app_cons. cbn. by rewrite IH.
Qed.

Lemma drop_chars_app (p t : string) : drop_chars (String.length p) (p +:+ t) = t.
Proof.
  induction p as [|x p IH]; [by destruct t|]. by rewrite string_app_cons.
Qed.

(** A string is determined by its length and what it ends in. *)
Lemma suffix_determined (s p t : string) :
  s = p +:+ t → drop_chars (String.length s - String.length t) s = t.
Proof.
  intros ->. rewrite string_length_app.
  replace (String.length p + String.length t - String.length t)%nat
    with (String.length p) by lia.
  apply drop_chars_app.
Qed.

Lemma ends_with_sep_app (p t : string) :
  t ≠ "" → ends_with_sep (p +:+ t) = ends_with_sep t.
Proof.
  intros Ht. induction p as [|x p IH]; [done|].
  rewrite string_app_cons, <- IH. cbn [ends_with_sep].
  destruct (p +:+ t) eqn:E; [|done].
  destruct p; [by destruct t|by rewrite string_app_cons in E].
Qed.

Lemma path_join_relative (a b : string) :
  starts_with_sep b = false → ∃ pre, path_join a b = pre +:+ b.
Proof.
  intros Hb. unfold path_join. rewrite Hb.
  destruct (_ || _).
  - by exists a.
  - exists (a +:+ "/"). symmetry. apply string_app_assoc.
Qed.

Lemma source_dir_form (cwd : string) :
  ∃ pre, source_dir_of cwd = pre +:+ "W_hotbox_v1.9".
Proof. by apply path_join_relative. Qed.

Lemma source_file_form (cwd f : string) :
  starts_with_sep f = false →
  ∃ pre, source_file_of cwd f = pre +:+ "W_hotbox_v1.9/" +:+ f.
Proof.
  intros Hf. unfold source_file_of.
  destruct (source_dir_form cwd) as [pre ->]. exists pre.
  unfold path_join. rewrite Hf, ends_with_sep_app by done.
  rewrite bool_decide_false.
  - cbn [orb ends_with_sep]. rewrite bool_decide_false by done.
    by rewrite string_app_assoc.
  - intros E. apply (f_equal String.length) in E.
    rewrite string_length_app in E. cbn in E. lia.
Qed.

(** A path built under [W_hotbox_v1.9] is none of the closed paths the
    script writes to. *)
Ltac ends_contra E form :=
  exfalso; destruct form as [pre Hform]; rewrite Hform in E;
  apply suffix_determined in E; vm_compute in E;
  apply String.eqb_eq in E; vm_compute in E; discriminate E.

Lemma source_file_not_written (cwd f l : string) :
  f ∈ files_to_copy →
  l ∈ [dest_file_of "W_hotbox.py"; backup_file_of "W_hotbox.py";
       dest_file_of "W_hotboxManager.py"; backup_file_of "W_hotboxManager.py"] →
  source_file_of cwd f ≠ l.
Proof.
  intros Hf Hl E. unfold files_to_copy in Hf.
  repeat (apply elem_of_cons in Hf as [->|Hf]);
    [| |by apply elem_of_nil in Hf];
    repeat (apply elem_of_cons in Hl as [->|Hl]);
    try (by apply elem_of_nil in Hl);
    symmetry in E;
    [ ends_contra E (source_file_form cwd "W_hotbox.py" eq_refl) ..
    | ends_contra E (source_file_form cwd "W_hotboxManager.py" eq_refl)
    | ends_contra E (source_file_form cwd "W_hotboxManager.py" eq_refl)
    | ends_contra E (source_file_form cwd "W_hotboxManager.py" eq_refl)
    | ends_contra E (source_file_form cwd "W_hotboxManager.py" eq_refl) ].
Qed.

Lemma source_dir_not_dest (cwd l : string) :
  l ∈ [dest_file_of "W_hotbox.py"; dest_file_of "W_hotboxManager.py"] →
  source_dir_of cwd ≠ l.
Proof.
  intros Hl E. symmetry in E.
  repeat (apply elem_of_cons in Hl as [->|Hl]);
    [| |by apply elem_of_nil in Hl];
    ends_contra E (source_dir_form cwd).
Qed.

(** *** What a successful run leaves behind *)

Section contents.
Context {FS : Type} `{!Os FS}.

(** [read fs p]: the contents of the file at [p], if there is one. *)
Variable read : FS → string → option string.

(** A [shutil.copy2] that returns has made the destination's contents
    those of the source and has left every other path as it was. *)
Hypothesis copy2_returns : ∀ src dst fs fs',
  shutil_copy2 src dst fs = (None, fs') →
  read fs' dst = read fs src ∧ ∀ p, p ≠ dst → read fs' p = read fs p.

(** Handling one file, when it was counted. *)
Lemma run_contents (fs fs' : FS) s d c :
  file_run fs s d c true fs' →
  s ≠ d → s ≠ d +:+ ".backup" → d +:+ ".backup" ≠ d →
  read fs' d = read fs s ∧
  (PathExists d true ∈ c → read fs' (d +:+ ".backup") = read fs d) ∧
  (∀ p, p ≠ d → p ≠ d +:+ ".backup" → read fs' p = read fs p).
Proof.
  intros Hrun Hsd Hsb Hbd.
  inversion Hrun; subst;
    match goal with
    | H : bool_decide _ = true |- _ => apply bool_decide_eq_true in H; subst
    end.
  - match goal with
    | H : shutil_copy2 _ _ _ = _ |- _ =>
        destruct (copy2_returns _ _ _ _ H) as [Hd Hother]
    end.
    split_and!; [done| |by auto].
    intros Hin. repeat (apply elem_of_cons in Hin as [Hin|Hin]);
      try (by apply elem_of_nil in Hin); simplify_eq.
  - match goal with
    | H1 : shutil_copy2 d _ fs = _, H2 : shutil_copy2 s d _ = _ |- _ =>
        destruct (copy2_returns _ _ _ _ H1) as [Hb Hother1];
        destruct (copy2_returns _ _ _ _ H2) as [Hd Hother2]
    end.
    split_and!.
    + rewrite Hd. by apply Hother1.
    + intros _. rewrite Hother2 by done. exact Hb.
    + intros p Hpd Hpb. rewrite Hother2 by done. by apply Hother1.
Qed.

Lemma run_checked (fs fs' : FS) s d c k p answer :
  file_run fs s d c k fs' → PathExists p answer ∈ c → p = s ∨ p = d.
Proof.
  inversion 1; subst; intros Hin;
    repeat (apply elem_of_cons in Hin as [Hin|Hin]);
    try (by apply elem_of_nil in Hin); simplify_eq; auto.
Qed.

(** X14: what a successful deployment leaves behind.  On a file
    system where a returning [shutil.copy2] copies the contents and
    touches nothing else, if [copy_hotbox_files] returns [True] then both
    deployed files hold what the two source files held when the script
    started, each deployed file the script found already there has its
    previous contents in its [.backup], and every other path is as it
    was. *)
Theorem deployed_contents :
  ∀ (fs : FS),
    let r := copy_hotbox_files fs in
    let cwd := os_getcwd fs in
    returned r = true →
    read (left_fs r) (dest_file_of "W_hotbox.py")
      = read fs (source_file_of cwd "W_hotbox.py") ∧
    read (left_fs r) (dest_file_of "W_hotboxManager.py")
      = read fs (source_file_of cwd "W_hotboxManager.py") ∧
    (PathExists (dest_file_of "W_hotbox.py") true ∈ transcript r →
     read (left_fs r) (backup_file_of "W_hotbox.py")
       = read fs (dest_file_of "W_hotbox.py")) ∧
    (PathExists (dest_file_of "W_hotboxManager.py") true ∈ transcript r →
     read (left_fs r) (backup_file_of "W_hotboxManager.py")
       = read fs (dest_file_of "W_hotboxManager.py")) ∧
    (∀ p, p ∉ [dest_file_of "W_hotbox.py"; backup_file_of "W_hotbox.py";
               dest_file_of "W_hotboxManager.py";
               backup_file_of "W_hotboxManager.py"] →
          read (left_fs r) p = read fs p).
Proof.
  intros fs r cwd. subst r cwd.
  destruct (copy_hotbox_files_run fs)
    as [(_ & _ & Hr & _)|[(_ & _ & _ & Hr & _)|
        (_ & _ & c1 & k1 & fs1 & c2 & k2 & H1 & H2 & Hc & Hr)]];
    rewrite Hr; [done..|].
  intros [-> ->]%andb_true_iff.
  set (s1 := source_file_of (os_getcwd fs) "W_hotbox.py") in *.
  set (s2 := source_file_of (os_getcwd fs) "W_hotboxManager.py") in *.
  assert (∀ f l, f ∈ files_to_copy →
            l ∈ [dest_file_of "W_hotbox.py"; backup_file_of "W_hotbox.py";
                 dest_file_of "W_hotboxManager.py";
                 backup_file_of "W_hotboxManager.py"] →
            source_file_of (os_getcwd fs) f ≠ l) as Hsrc
    by (intros; by apply source_file_not_written).
  assert (s1 ≠ dest_file_of "W_hotbox.py") as Hs1d1
    by (apply Hsrc; repeat constructor).
  assert (s1 ≠ dest_file_of "W_hotbox.py" +:+ ".backup") as Hs1b1
    by (apply (Hsrc "W_hotbox.py" (backup_file_of "W_hotbox.py"));
        repeat constructor).
  assert (s2 ≠ dest_file_of "W_hotboxManager.py") as Hs2d2
    by (apply Hsrc; repeat constructor).
  assert (s2 ≠ dest_file_of "W_hotboxManager.py" +:+ ".backup") as Hs2b2
    by (apply (Hsrc "W_hotboxManager.py" (backup_file_of "W_hotboxManager.py"));
        repeat constructor).
  assert (s2 ≠ dest_file_of "W_hotbox.py") as Hs2d1
    by (apply Hsrc; repeat constructor).
  assert (s2 ≠ backup_file_of "W_hotbox.py") as Hs2b1
    by (apply Hsrc; repeat constructor).
  assert (s1 ≠ dest_file_of "W_hotboxManager.py") as Hs1d2
    by (apply Hsrc; repeat constructor).
  destruct (run_contents _ _ _ _ _ H1 Hs1d1 Hs1b1) as (Hd1 & Hb1 & Ho1);
    [intros E; string_contra E|].
  destruct (run_contents _ _ _ _ _ H2 Hs2d2 Hs2b2) as (Hd2 & Hb2 & Ho2);
    [intros E; string_contra E|].
  split_and!.
  - rewrite Ho2, Hd1; [done| |]; intros E; string_contra E.
  - rewrite Hd2. by apply Ho1.
  - intros Hin. apply in_calls in Hin; [|done].
    rewrite Hc in Hin. unfold backup_file_of.
    rewrite Ho2; [| |]; try (intros E; string_contra E).
    elem_cases Hin.
    + exfalso. injection Hin as E.
      by eapply (source_dir_not_dest (os_getcwd fs)); [|done]; repeat constructor.
    + exfalso. injection Hin as E. string_contra E.
    + by apply Hb1.
    + exfalso. destruct (run_checked _ _ _ _ _ _ _ _ H2 Hin) as [E|E];
        [by apply Hs2d1|string_contra E].
  - intros Hin. apply in_calls in Hin; [|done].
    rewrite Hc in Hin. unfold backup_file_of.
    elem_cases Hin.
    + exfalso. injection Hin as E.
      by eapply (source_dir_not_dest (os_getcwd fs)); [|done]; repeat constructor.
    + exfalso. injection Hin as E. string_contra E.
    + exfalso. destruct (run_checked _ _ _ _ _ _ _ _ H1 Hin) as [E|E];
        [by apply Hs1d2|string_contra E].
    + rewrite Hb2 by done. apply Ho1; intros E; string_contra E.
  - intros p Hp. rewrite !not_elem_of_cons in Hp.
    destruct Hp as (? & ? & ? & ? & _).
    rewrite Ho2 by done. by apply Ho1.
Qed.

End contents.

(** *** Run as a script *)

Section script_main.
Context {FS : Type} `{!Os FS}.



End script_main.

(** *** What the script tells the user *)

Section script_output.
Context {FS : Type} `{!Os FS}.



End script_output.

(** *** The script on the small file system *)

Lemma sim_copy2_returns (src dst : string) (fs fs' : SimFS) :
  shutil_copy2 src dst fs = (None, fs') →
  sim_files fs' dst = sim_files fs src ∧
  ∀ p, p ≠ dst → sim_files fs' p = sim_files fs p.
Proof.
  cbn. unfold sim_copy2. destruct (sim_files fs src) as [content|] eqn:E; [|done].
  destruct (bool_decide _); [done|]. intros [= <-]. cbn. split.
  - by rewrite fn_lookup_insert.
  - intros p Hp. by rewrite fn_lookup_insert_ne.
Qed.


Lemma copies_confined_to_destination_witness :
  (length (copies (transcript (copy_hotbox_files Studio.protected))) ≤ 4)%nat.
Proof. exact (proj2 (copies_confined_to_destination Studio.protected)). Defined.

Lemma overwrite_preceded_by_backup_witness :
  calls (transcript (copy_hotbox_files Studio.ready)) =
    [PathExists "/home/artist/W_hotbox_v1.9" true; PathExists dest_dir true;
     PathExists Studio.source1 true; PathExists Studio.dest1 true;
     Copy2 Studio.dest1 (Studio.dest1 +:+ ".backup") None]
    ++ Copy2 Studio.source1 Studio.dest1 None
    :: [PathExists Studio.source2 true; PathExists Studio.dest2 false;
        Copy2 Studio.source2 Studio.dest2 None] ∧
  ((∃ pre', [PathExists "/home/artist/W_hotbox_v1.9" true;
             PathExists dest_dir true;
             PathExists Studio.source1 true; PathExists Studio.dest1 true;
             Copy2 Studio.dest1 (Studio.dest1 +:+ ".backup") None]
            = pre' ++ [PathExists Studio.dest1 false]) ∨
   (∃ pre', [PathExists "/home/artist/W_hotbox_v1.9" true;
             PathExists dest_dir true;
             PathExists Studio.source1 true; PathExists Studio.dest1 true;
             Copy2 Studio.dest1 (Studio.dest1 +:+ ".backup") None]
            = pre' ++ [PathExists Studio.dest1 true;
                       Copy2 Studio.dest1 (Studio.dest1 +:+ ".backup") None])).
Proof.
  assert (calls (transcript (copy_hotbox_files Studio.ready)) =
    [PathExists "/home/artist/W_hotbox_v1.9" true; PathExists dest_dir true;
     PathExists Studio.source1 true; PathExists Studio.dest1 true;
     Copy2 Studio.dest1 (Studio.dest1 +:+ ".backup") None]
    ++ Copy2 Studio.source1 Studio.dest1 None
    :: [PathExists Studio.source2 true; PathExists Studio.dest2 false;
        Copy2 Studio.source2 Studio.dest2 None]) as Hcalls by (by vm_compute).
  split; [exact Hcalls|].
  apply (overwrite_preceded_by_backup Studio.ready _ _ _ _ _ Hcalls).
  left.
Defined.

Lemma deployed_contents_witness :
  let fs' := left_fs (copy_hotbox_files Studio.ready) in
  returned (copy_hotbox_files Studio.ready) = true ∧
  sim_files fs' Studio.dest1 = Some "fixed hotbox" ∧
  sim_files fs' Studio.dest2 = Some "fixed manager" ∧
  sim_files fs' (Studio.dest1 +:+ ".backup") = Some "old hotbox".
Proof.
  pose proof (deployed_contents sim_files sim_copy2_returns Studio.ready eq_refl)
    as (H1 & H2 & H3 & _).
  split_and!; [reflexivity|exact H1|exact H2|].
  apply H3. vm_compute. repeat constructor.
Defined.



(** *** Calls are only made for real changes *)

(** X17: [simulate_mouseMove] never highlights a button that is not
    under the pointer and never clears one that was not set.  From any
    state, a [setSelectionStatus(True)] call goes to a button of the
    collection that contains the position and was not the hovered one,
    and a [setSelectionStatus(False)] call goes to a button of the
    collection whose flag was set. *)
Theorem calls_only_for_real_changes :
  ∀ (w : World) (pos : QPoint.t) (a : addr),
    let t := emitted (simulate_mouseMove pos w) in
    (SetSelectionStatus a true ∈ t →
       a ∈ regions w ∧ hit w pos a = true ∧ hovered w ≠ Some a) ∧
    (SetSelectionStatus a false ∈ t →
       a ∈ regions w ∧ MockButton.selected (heap w a) = true).
Proof.
  intros w pos a t. subst t.
  destruct (decide (winner w pos = hovered w)) as [E|NE].
  { rewrite simulate_mouseMove_same by done.
    split; by intros ?%elem_of_nil. }
  destruct (simulate_mouseMove_change pos w NE) as (_ & _ & ->).
  rewrite select_winner_option_list. split.
  - intros [Hin|Hin]%elem_of_app.
    + apply list_elem_of_fmap in Hin as (b & [=] & _).
    + apply list_elem_of_fmap in Hin as (b & [= <-] & Hb).
      destruct (winner w pos) as [c|] eqn:Ew; cbn in Hb;
        [|by apply elem_of_nil in Hb].
      apply list_elem_of_singleton in Hb as ->.
      destruct (first_hit_elem _ _ _ _ Ew) as [Hc Hhit].
      split_and!; [done..|congruence].
  - intros [Hin|Hin]%elem_of_app.
    + apply list_elem_of_fmap in Hin as (b & [= <-] & Hb).
      by apply elem_of_flagged.
    + apply list_elem_of_fmap in Hin as (b & [=] & _).
Qed.
